(** * Escrow: a shallow embedding of the Solidity contract [Escrow]

    The contract keeps a ledger of time-boxed escrows.  A sender deposits
    value for a recipient ([createEscrow]); the sender may take it back
    before [releaseTime] ([returnEscrow]); the recipient may withdraw it
    from [releaseTime] on ([releaseEscrow]).

    Modelling choices:
    - [uint256] and [address] values are [N]; Solidity 0.8 checked
      arithmetic is written out ([checked_add], [checked_sub]) and reverts
      with [Panic_overflow] when the result leaves the 256-bit range;
    - a Solidity [mapping] is a [gmap] read with the total lookup [!!!],
      whose default is the all-zero value, as in the EVM;
    - every external function is a computation in the monad [M]: it either
      returns a value and a new state, or reverts with an [error]; a
      reverted call leaves the state it started from ([commit]);
    - [keccak256] is a parameter of the development;
    - the low-level call [to.call{value: amount}("")] hands control to the
      payee, who may call back into the contract before answering; the
      payee's behaviour is data of the call ([call]). *)

From stdpp Require Import gmap list strings pretty.

Local Open Scope N_scope.

(** ** Data model *)

Abbreviation address := N (only parsing).
Abbreviation bytes32 := N (only parsing).
Abbreviation uint256 := N (only parsing).

Definition UINT256_MAX : N := 2 ^ 256 - 1.

Record EscrowTransaction : Type := {
  sender : address;
  recipient : address;
  amount : uint256;
  createdAt : uint256;
  releaseTime : uint256;
  isReleased : bool;
  isReturned : bool;
  isActive : bool
}.

(** The value a [mapping(bytes32 => EscrowTransaction)] holds at a key that
    was never written. *)
Definition zero_escrow : EscrowTransaction :=
  {| sender := 0; recipient := 0; amount := 0; createdAt := 0;
     releaseTime := 0; isReleased := false; isReturned := false;
     isActive := false |}.

Global Instance EscrowTransaction_inhabited : Inhabited EscrowTransaction :=
  populate zero_escrow.

Definition set_isReleased (b : bool) (t : EscrowTransaction) : EscrowTransaction :=
  {| sender := sender t; recipient := recipient t; amount := amount t;
     createdAt := createdAt t; releaseTime := releaseTime t;
     isReleased := b; isReturned := isReturned t; isActive := isActive t |}.

Definition set_isReturned (b : bool) (t : EscrowTransaction) : EscrowTransaction :=
  {| sender := sender t; recipient := recipient t; amount := amount t;
     createdAt := createdAt t; releaseTime := releaseTime t;
     isReleased := isReleased t; isReturned := b; isActive := isActive t |}.

Definition set_isActive (b : bool) (t : EscrowTransaction) : EscrowTransaction :=
  {| sender := sender t; recipient := recipient t; amount := amount t;
     createdAt := createdAt t; releaseTime := releaseTime t;
     isReleased := isReleased t; isReturned := isReturned t; isActive := b |}.

Inductive event : Type :=
| EscrowCreated (escrowId : bytes32) (from to : address) (value release : uint256)
| EscrowReleased (escrowId : bytes32) (to : address) (value : uint256)
| EscrowReturned (escrowId : bytes32) (to : address) (value : uint256).

(** The contract's storage, its ether balance, the events it has emitted
    (oldest first) and the value transfers it has made (oldest first). *)
Record state : Type := {
  escrows : gmap N EscrowTransaction;
  userEscrows : gmap N (list N);
  escrowCount : uint256;
  _locked : bool;
  balance : uint256;
  events : list event;
  transfers : list (address * uint256)
}.

Definition RETURN_WINDOW : uint256 := 300.

(** The contract as deployed. *)
Definition init_state : state :=
  {| escrows := ∅; userEscrows := ∅; escrowCount := 0; _locked := false;
     balance := 0; events := []; transfers := [] |}.

Definition with_escrows (f : gmap N EscrowTransaction → gmap N EscrowTransaction)
    (st : state) : state :=
  {| escrows := f (escrows st); userEscrows := userEscrows st;
     escrowCount := escrowCount st; _locked := _locked st;
     balance := balance st; events := events st; transfers := transfers st |}.

Definition with_userEscrows (f : gmap N (list N) → gmap N (list N))
    (st : state) : state :=
  {| escrows := escrows st; userEscrows := f (userEscrows st);
     escrowCount := escrowCount st; _locked := _locked st;
     balance := balance st; events := events st; transfers := transfers st |}.

Definition with_escrowCount (n : uint256) (st : state) : state :=
  {| escrows := escrows st; userEscrows := userEscrows st;
     escrowCount := n; _locked := _locked st;
     balance := balance st; events := events st; transfers := transfers st |}.

Definition with_locked (b : bool) (st : state) : state :=
  {| escrows := escrows st; userEscrows := userEscrows st;
     escrowCount := escrowCount st; _locked := b;
     balance := balance st; events := events st; transfers := transfers st |}.

Definition with_balance (n : uint256) (st : state) : state :=
  {| escrows := escrows st; userEscrows := userEscrows st;
     escrowCount := escrowCount st; _locked := _locked st;
     balance := n; events := events st; transfers := transfers st |}.

Definition with_event (ev : event) (st : state) : state :=
  {| escrows := escrows st; userEscrows := userEscrows st;
     escrowCount := escrowCount st; _locked := _locked st;
     balance := balance st; events := events st ++ [ev];
     transfers := transfers st |}.

Definition with_transfer (to : address) (value : uint256) (st : state) : state :=
  {| escrows := escrows st; userEscrows := userEscrows st;
     escrowCount := escrowCount st; _locked := _locked st;
     balance := balance st; events := events st;
     transfers := transfers st ++ [(to, value)] |}.

(** ** Reverts *)

(** One constructor per [require] message of the contract, plus the
    arithmetic panic of checked [uint256] operations. *)
Inductive error : Type :=
| ReentrantCall
| NotAuthorized
| EscrowDoesNotExist
| AmountMustBePositive
| InvalidRecipient
| CannotSendToYourself
| OnlyRecipientCanRelease
| OnlySenderCanReturn
| AlreadyReleased
| AlreadyReturned
| StillInReturnWindow
| ReturnWindowExpired
| TransferFailed
| ReturnFailed
| Panic_overflow.

Definition message (e : error) : string :=
  match e with
  | ReentrantCall => "ReentrancyGuard: reentrant call"
  | NotAuthorized => "Not authorized"
  | EscrowDoesNotExist => "Escrow does not exist"
  | AmountMustBePositive => "Amount must be greater than 0"
  | InvalidRecipient => "Invalid recipient address"
  | CannotSendToYourself => "Cannot send to yourself"
  | OnlyRecipientCanRelease => "Only recipient can release"
  | OnlySenderCanReturn => "Only sender can return"
  | AlreadyReleased => "Already released"
  | AlreadyReturned => "Already returned"
  | StillInReturnWindow => "Still in return window"
  | ReturnWindowExpired => "Return window expired"
  | TransferFailed => "Transfer failed"
  | ReturnFailed => "Return failed"
  | Panic_overflow => "Panic(0x11)"
  end.

(** ** The execution monad *)

Inductive outcome (A : Type) : Type :=
| Ok (a : A) (st : state)
| Revert (e : error).
Arguments Ok {A} a st.
Arguments Revert {A} e.

Definition M (A : Type) : Type := state → outcome A.

Definition ret {A} (a : A) : M A := λ st, Ok a st.

Definition bind {A B} (m : M A) (k : A → M B) : M B :=
  λ st, match m st with
        | Ok a st' => k a st'
        | Revert e => Revert e
        end.

Declare Scope sol_scope.
Delimit Scope sol_scope with sol.
Notation "'let*' x := m 'in' k" := (bind m (λ x, k))
  (at level 10, x name, m at level 100, k at level 200) : sol_scope.
Notation "m >> k" := (bind m (λ _, k))
  (at level 100, k at level 200, right associativity) : sol_scope.
Local Open Scope sol_scope.

Definition gets {A} (f : state → A) : M A := λ st, Ok (f st) st.
Definition modify (f : state → state) : M unit := λ st, Ok tt (f st).
Definition revert {A} (e : error) : M A := λ _, Revert e.
Definition require (cond : bool) (e : error) : M unit :=
  if cond then ret tt else revert e.
Definition emit (ev : event) : M unit := modify (with_event ev).

(** What a call leaves behind: its final state, or, when it reverts, the
    state it started from. *)
Definition commit {A} (m : M A) (st : state) : state :=
  match m st with
  | Ok _ st' => st'
  | Revert _ => st
  end.

Definition checked_add (a b : uint256) : M uint256 :=
  if a + b <=? UINT256_MAX then ret (a + b) else revert Panic_overflow.

Definition checked_sub (a b : uint256) : M uint256 :=
  if b <=? a then ret (a - b) else revert Panic_overflow.

(** [msg.sender], [msg.value] and [block.timestamp] of a call. *)
Record env : Type := {
  msg_sender : address;
  msg_value : uint256;
  block_timestamp : uint256
}.

(** Reading and writing through [escrows[escrowId]]. *)
Definition load (escrowId : bytes32) : M EscrowTransaction :=
  gets (λ st, escrows st !!! escrowId).

Definition store (escrowId : bytes32)
    (f : EscrowTransaction → EscrowTransaction) : M unit :=
  modify (with_escrows (λ m, <[escrowId := f (m !!! escrowId)]> m)).

(** [userEscrows[user].push(escrowId)]. *)
Definition push (user : address) (escrowId : bytes32) : M unit :=
  modify (with_userEscrows (λ m, <[user := (m !!! user) ++ [escrowId]]> m)).

(** A payable function first receives [msg.value]. *)
Definition payable {A} (e : env) (body : M A) : M A :=
  modify (λ st, with_balance (balance st + msg_value e) st) >> body.

(** ** abi.encodePacked *)

(** [width] bytes of [x], most significant first. *)
Fixpoint be_bytes (width : nat) (x : N) : list N :=
  match width with
  | O => []
  | S w => be_bytes w (x / 256) ++ [x mod 256]
  end.

(** [abi.encodePacked(address, address, uint256, uint256, uint256)]:
    20 + 20 + 32 + 32 + 32 bytes, no padding. *)
Definition encodePacked (from to : address) (value timestamp count : uint256)
    : list N :=
  be_bytes 20 from ++ be_bytes 20 to ++ be_bytes 32 value ++
  be_bytes 32 timestamp ++ be_bytes 32 count.

(** ** The contract *)

Section Contract.

Variable keccak256 : list N → bytes32.

Definition nonReentrant {A} (body : M A) : M A :=
  let* locked := gets _locked in
  require (negb locked) ReentrantCall >>
  modify (with_locked true) >>
  let* a := body in
  modify (with_locked false) >>
  ret a.

Definition onlyParties {A} (e : env) (escrowId : bytes32) (body : M A) : M A :=
  let* escrow := load escrowId in
  require ((msg_sender e =? sender escrow) || (msg_sender e =? recipient escrow))
    NotAuthorized >>
  body.

Definition escrowExists {A} (escrowId : bytes32) (body : M A) : M A :=
  let* escrow := load escrowId in
  require (isActive escrow) EscrowDoesNotExist >>
  body.

Definition createEscrow (e : env) (_recipient : address) : M bytes32 :=
  require (0 <? msg_value e) AmountMustBePositive >>
  require (negb (_recipient =? 0)) InvalidRecipient >>
  require (negb (_recipient =? msg_sender e)) CannotSendToYourself >>
  let* count := gets escrowCount in
  let* next := checked_add count 1 in
  modify (with_escrowCount next) >>
  let escrowId :=
    keccak256 (encodePacked (msg_sender e) _recipient (msg_value e)
                 (block_timestamp e) count) in
  let* release := checked_add (block_timestamp e) RETURN_WINDOW in
  modify (with_escrows (insert escrowId
    {| sender := msg_sender e; recipient := _recipient;
       amount := msg_value e; createdAt := block_timestamp e;
       releaseTime := release; isReleased := false; isReturned := false;
       isActive := true |})) >>
  push (msg_sender e) escrowId >>
  push _recipient escrowId >>
  emit (EscrowCreated escrowId (msg_sender e) _recipient (msg_value e) release) >>
  ret escrowId.

(** [send to amount] stands for [to.call{value: amount}("")] and answers
    with the call's [success] flag. *)
Definition releaseEscrow (send : address → uint256 → M bool)
    (e : env) (escrowId : bytes32) : M unit :=
  nonReentrant (escrowExists escrowId (onlyParties e escrowId (
    let* escrow := load escrowId in
    require (msg_sender e =? recipient escrow) OnlyRecipientCanRelease >>
    require (negb (isReleased escrow)) AlreadyReleased >>
    require (negb (isReturned escrow)) AlreadyReturned >>
    require (releaseTime escrow <=? block_timestamp e) StillInReturnWindow >>
    store escrowId (set_isReleased true) >>
    store escrowId (set_isActive false) >>
    let* escrow := load escrowId in
    let to := recipient escrow in
    let value := amount escrow in
    let* success := send to value in
    require success TransferFailed >>
    emit (EscrowReleased escrowId to value)))).

Definition returnEscrow (send : address → uint256 → M bool)
    (e : env) (escrowId : bytes32) : M unit :=
  nonReentrant (escrowExists escrowId (
    let* escrow := load escrowId in
    require (msg_sender e =? sender escrow) OnlySenderCanReturn >>
    require (negb (isReleased escrow)) AlreadyReleased >>
    require (negb (isReturned escrow)) AlreadyReturned >>
    require (block_timestamp e <? releaseTime escrow) ReturnWindowExpired >>
    store escrowId (set_isReturned true) >>
    store escrowId (set_isActive false) >>
    let* escrow := load escrowId in
    let to := sender escrow in
    let value := amount escrow in
    let* success := send to value in
    require success ReturnFailed >>
    emit (EscrowReturned escrowId to value))).

(** View functions. *)
Definition getEscrow (escrowId : bytes32) : M EscrowTransaction :=
  load escrowId.

Definition getUserEscrows (user : address) : M (list bytes32) :=
  gets (λ st, userEscrows st !!! user).

Definition getEscrowStatus (e : env) (escrowId : bytes32)
    : M (bool * bool * bool * uint256) :=
  let* escrow := load escrowId in
  let* timeRemaining :=
    (if block_timestamp e <? releaseTime escrow
     then checked_sub (releaseTime escrow) (block_timestamp e)
     else ret 0) in
  ret (isActive escrow, isReleased escrow, isReturned escrow, timeRemaining).

Definition canReturn (e : env) (escrowId : bytes32) : M bool :=
  let* escrow := load escrowId in
  ret (isActive escrow && negb (isReleased escrow) && negb (isReturned escrow)
       && (block_timestamp e <? releaseTime escrow)).

Definition canRelease (e : env) (escrowId : bytes32) : M bool :=
  let* escrow := load escrowId in
  ret (isActive escrow && negb (isReleased escrow) && negb (isReturned escrow)
       && (releaseTime escrow <=? block_timestamp e)).

(** ** Calls and the payee *)

(** A call into the contract.  [ReleaseEscrow] and [ReturnEscrow] carry the
    behaviour of the account that is paid: the calls it makes back into the
    contract when it receives the value ([payee], in order, each in a frame
    of its own), and whether it then accepts the payment ([accepts]) or
    reverts.  A payee that chooses its calls from what it observes makes,
    in any one run, one such list of calls. *)
#[local] Unset Elimination Schemes.
Inductive call : Type :=
| CreateEscrow (from : address) (value : uint256) (_recipient : address)
| ReleaseEscrow (from : address) (escrowId : bytes32)
    (payee : list call) (accepts : bool)
| ReturnEscrow (from : address) (escrowId : bytes32)
    (payee : list call) (accepts : bool).
#[local] Set Elimination Schemes.

(** [to.call{value: amount}("")]: fails when the contract cannot afford
    [amount]; otherwise the value leaves, the payee runs ([react]), and
    when the payee reverts everything since the call began is undone. *)
Definition call_value (react : state → state) (accepts : bool)
    (to : address) (value : uint256) : M bool :=
  λ st,
    if balance st <? value then Ok false st
    else if accepts
         then Ok true (react (with_transfer to value
                                (with_balance (balance st - value) st)))
         else Ok false st.

Fixpoint exec (now : uint256) (c : call) {struct c} : M (option bytes32) :=
  match c with
  | CreateEscrow from value _recipient =>
      let e := {| msg_sender := from; msg_value := value;
                  block_timestamp := now |} in
      let* escrowId := payable e (createEscrow e _recipient) in
      ret (Some escrowId)
  | ReleaseEscrow from escrowId payee accepts =>
      let e := {| msg_sender := from; msg_value := 0;
                  block_timestamp := now |} in
      releaseEscrow
        (call_value (λ st, foldl (λ s c', commit (exec now c') s) st payee)
           accepts)
        e escrowId >>
      ret None
  | ReturnEscrow from escrowId payee accepts =>
      let e := {| msg_sender := from; msg_value := 0;
                  block_timestamp := now |} in
      returnEscrow
        (call_value (λ st, foldl (λ s c', commit (exec now c') s) st payee)
           accepts)
        e escrowId >>
      ret None
  end.

(** The payee's calls, from the state in which it receives the value. *)
Definition react (now : uint256) (payee : list call) (st : state) : state :=
  foldl (λ s c', commit (exec now c') s) st payee.

(** A transaction: the call at block time [now], committed or undone. *)
Definition transact (now : uint256) (c : call) (st : state) : state :=
  commit (exec now c) st.

(** ** Derived notions used in the statements *)

(** The id and the record [createEscrow] computes, and the state it leaves,
    when none of its checks fails. *)
Definition new_id (now from value _recipient : N) (st : state) : bytes32 :=
  keccak256 (encodePacked from _recipient value now (escrowCount st)).

Definition new_escrow (now from value _recipient : N) : EscrowTransaction :=
  {| sender := from; recipient := _recipient; amount := value;
     createdAt := now; releaseTime := now + RETURN_WINDOW;
     isReleased := false; isReturned := false; isActive := true |}.

Definition created (now from value _recipient : N) (st : state) : state :=
  let id := new_id now from value _recipient st in
  let pushed := <[from := (userEscrows st !!! from) ++ [id]]> (userEscrows st) in
  {| escrows := <[id := new_escrow now from value _recipient]> (escrows st);
     userEscrows := <[_recipient := (pushed !!! _recipient) ++ [id]]> pushed;
     escrowCount := escrowCount st + 1;
     _locked := _locked st;
     balance := balance st + value;
     events := events st ++
       [EscrowCreated id from _recipient value (now + RETURN_WINDOW)];
     transfers := transfers st |}.

(** The state in which [releaseEscrow] ([mark := set_isReleased]) or
    [returnEscrow] ([mark := set_isReturned]) makes its external call: the
    guard is taken and the two flags are written. *)
Definition in_flight (mark : bool → EscrowTransaction → EscrowTransaction)
    (escrowId : bytes32) (st : state) : state :=
  with_escrows (λ m, <[escrowId := set_isActive false (m !!! escrowId)]> m)
    (with_escrows (λ m, <[escrowId := mark true (m !!! escrowId)]> m)
       (with_locked true st)).

(** The state the payee runs in: the value has left the contract. *)
Definition paid (to : address) (value : uint256) (st : state) : state :=
  with_transfer to value (with_balance (balance st - value) st).

(** Ids of the escrows the event log reports as released or returned, and
    as created, oldest first. *)
Definition settled_id (ev : event) : option bytes32 :=
  match ev with
  | EscrowReleased escrowId _ _ | EscrowReturned escrowId _ _ => Some escrowId
  | EscrowCreated _ _ _ _ _ => None
  end.

Definition created_id (ev : event) : option bytes32 :=
  match ev with
  | EscrowCreated escrowId _ _ _ _ => Some escrowId
  | _ => None
  end.

Definition settled (st : state) : list bytes32 := omap settled_id (events st).
Definition created_ids (st : state) : list bytes32 := omap created_id (events st).

(** States of the deployed contract between transactions. *)
Inductive reachable : state → Prop :=
| reachable_init : reachable init_state
| reachable_transact st now c :
    reachable st → reachable (transact now c st).

(** The states a sequence of transactions goes through, and the ids its
    successful [createEscrow] calls return, in order. *)
Fixpoint run (st : state) (txs : list (uint256 * call)) : state :=
  match txs with
  | [] => st
  | (now, c) :: txs' => run (transact now c st) txs'
  end.

Fixpoint returned_ids (st : state) (txs : list (uint256 * call))
    : list bytes32 :=
  match txs with
  | [] => []
  | (now, c) :: txs' =>
      match exec now c st with
      | Ok (Some escrowId) st' => escrowId :: returned_ids st' txs'
      | Ok None st' => returned_ids st' txs'
      | Revert _ => returned_ids st txs'
      end
  end.

(** The packed inputs those calls hash, in the same order. *)
Fixpoint returned_inputs (st : state) (txs : list (uint256 * call))
    : list (list N) :=
  match txs with
  | [] => []
  | (now, c) :: txs' =>
      match exec now c st with
      | Ok (Some _) st' =>
          match c with
          | CreateEscrow from value _recipient =>
              encodePacked from _recipient value now (escrowCount st)
                :: returned_inputs st' txs'
          | _ => returned_inputs st' txs'
          end
      | Ok None st' => returned_inputs st' txs'
      | Revert _ => returned_inputs st txs'
      end
  end.

(** Whether a call is a release or a return of [escrowId], whether a call
    goes through, and how many releases and returns of [escrowId] go
    through in a sequence of transactions. *)
Definition settles (escrowId : bytes32) (c : call) : bool :=
  match c with
  | ReleaseEscrow _ id _ _ | ReturnEscrow _ id _ _ => id =? escrowId
  | CreateEscrow _ _ _ => false
  end.

Definition succeeds (now : uint256) (c : call) (st : state) : bool :=
  match exec now c st with
  | Ok _ _ => true
  | Revert _ => false
  end.

Fixpoint settlements (escrowId : bytes32) (st : state)
    (txs : list (uint256 * call)) : nat :=
  match txs with
  | [] => O
  | (now, c) :: txs' =>
      ((if settles escrowId c && succeeds now c st then 1 else 0) +
       settlements escrowId (transact now c st) txs')%nat
  end.

(** A record that has been released or returned. *)
Definition terminal (st : state) (escrowId : bytes32) : Prop :=
  ∃ t, escrows st !! escrowId = Some t ∧ isActive t = false.

(** [keccak256] has no collision among the packed inputs that
    [createEscrow] hashes. *)
Definition collision_free : Prop :=
  ∀ from to value timestamp count from' to' value' timestamp' count',
    keccak256 (encodePacked from to value timestamp count) =
      keccak256 (encodePacked from' to' value' timestamp' count') →
    encodePacked from to value timestamp count =
      encodePacked from' to' value' timestamp' count'.

(** [escrowId] is the hash of a packed input whose counter component is
    below the current [escrowCount]. *)
Definition minted (st : state) (escrowId : bytes32) : Prop :=
  ∃ from to value timestamp count,
    count < escrowCount st ∧
    escrowId = keccak256 (encodePacked from to value timestamp count).

(** What every stored record satisfies. *)
Definition well_formed (t : EscrowTransaction) : Prop :=
  recipient t ≠ 0 ∧ recipient t ≠ sender t ∧ 0 < amount t ∧
  releaseTime t = createdAt t + RETURN_WINDOW ∧
  isReleased t && isReturned t = false ∧
  isActive t = negb (isReleased t || isReturned t).

(** The invariant of the store: the stored records are those of the ids
    the log reports as created, and each is well formed.  It also holds
    while a payee is running. *)
Record store_ok (st : state) : Prop := {
  ok_record : ∀ id t, escrows st !! id = Some t → well_formed t;
  ok_created : ∀ id, id ∈ created_ids st ↔ is_Some (escrows st !! id)
}.

(** The invariant of the ids, for a collision-free [keccak256]; it also
    holds while a payee is running. *)
Record ledger_ok (st : state) : Prop := {
  ok_count : escrowCount st ≤ UINT256_MAX;
  ok_minted : ∀ id t, escrows st !! id = Some t → minted st id;
  ok_settled : ∀ id, id ∈ settled st →
    ∃ t, escrows st !! id = Some t ∧ isActive t = false;
  ok_once : NoDup (settled st)
}.

(** [st'] keeps every record of [st], has minted at least as many ids, and
    has the same guard and the same settlements. *)
Definition extends (st st' : state) : Prop :=
  (∀ id t, escrows st !! id = Some t → escrows st' !! id = Some t) ∧
  escrowCount st ≤ escrowCount st' ∧
  settled st' = settled st ∧
  _locked st' = _locked st.

End Contract.

(** ** A collision-free stand-in for [keccak256], for concrete runs *)

Definition sample_keccak256 (data : list N) : bytes32 := Npos (encode data).

(** A sender, a recipient, and the ledger after the sender has put 10 units
    in escrow at time 0 (so [releaseTime] is 300). *)
Definition alice : address := 1.
Definition bob : address := 2.
Definition sample_id : bytes32 := new_id sample_keccak256 0 alice 10 bob init_state.
Definition sample_open : state :=
  transact sample_keccak256 0 (CreateEscrow alice 10 bob) init_state.

(** The same ledger after the sender has taken the value back at time 299,
    and after the recipient has withdrawn it at time 300. *)
Definition sample_returned : state :=
  transact sample_keccak256 299 (ReturnEscrow alice sample_id [] true) sample_open.
Definition sample_released : state :=
  transact sample_keccak256 300 (ReleaseEscrow bob sample_id [] true) sample_open.

(** The state in which the recipient is paid during that withdrawal: the
    guard is taken, the record is marked released and the value has left. *)
Definition sample_in_flight : state :=
  paid bob 10 (in_flight set_isReleased sample_id sample_open).

(** The calls of the two parties at time [now]. *)
Definition as_alice (now : uint256) : env :=
  {| msg_sender := alice; msg_value := 0; block_timestamp := now |}.
Definition as_bob (now : uint256) : env :=
  {| msg_sender := bob; msg_value := 0; block_timestamp := now |}.

(** A payee that reverts when it is paid, and one that accepts. *)
Definition rejecting_payee : address → uint256 → M bool :=
  call_value (react sample_keccak256 300 []) false.
Definition accepting_payee : address → uint256 → M bool :=
  call_value (react sample_keccak256 300 []) true.

(** ** Custody *)

(** What the contract owes for a record: the amount while it is active. *)
Definition owed (t : EscrowTransaction) : uint256 :=
  if isActive t then amount t else 0.

(** The sum of what the contract owes over the whole ledger. *)
Definition held (m : gmap N EscrowTransaction) : uint256 :=
  map_fold (λ _ t acc, owed t + acc) 0 m.

(** What a call pays out when it goes through, and what it adds to
    [settled]. *)
Definition payout (c : call) (st : state) : list (address * uint256) :=
  match c with
  | CreateEscrow _ _ _ => []
  | ReleaseEscrow _ escrowId _ _ =>
      [(recipient (escrows st !!! escrowId), amount (escrows st !!! escrowId))]
  | ReturnEscrow _ escrowId _ _ =>
      [(sender (escrows st !!! escrowId), amount (escrows st !!! escrowId))]
  end.

Definition settles_id (c : call) : list bytes32 :=
  match c with
  | CreateEscrow _ _ _ => []
  | ReleaseEscrow _ escrowId _ _ | ReturnEscrow _ escrowId _ _ => [escrowId]
  end.

(** Totals of the value paid out and of the value deposited, read off the
    transfers and off the [EscrowCreated] events. *)
Definition paid_total (st : state) : uint256 :=
  foldr (λ p acc, p.2 + acc) 0 (transfers st).

Definition deposit (ev : event) : uint256 :=
  match ev with
  | EscrowCreated _ _ _ value _ => value
  | _ => 0
  end.

Definition deposited_total (st : state) : uint256 :=
  foldr (λ ev acc, deposit ev + acc) 0 (events st).

(** ** The participant index *)

(** Every stored record is listed under its sender and under its
    recipient; every listed id has a record of which the user is the
    sender or the recipient. *)
Definition index_complete (st : state) : Prop :=
  ∀ id t, escrows st !! id = Some t →
    id ∈ userEscrows st !!! sender t ∧ id ∈ userEscrows st !!! recipient t.

Definition index_sound (st : state) : Prop :=
  ∀ u id, id ∈ userEscrows st !!! u →
    ∃ t, escrows st !! id = Some t ∧ (sender t = u ∨ recipient t = u).

(** Every stored id has been minted, and the counter is in range. *)
Record minted_ok (keccak256 : list N → bytes32) (st : state) : Prop := {
  minted_count : escrowCount st ≤ UINT256_MAX;
  minted_stored : ∀ id t, escrows st !! id = Some t → minted keccak256 st id
}.

(** How a record may change over time: the five data fields stay, a set
    [isReleased] or [isReturned] stays set, and a cleared [isActive] stays
    cleared. *)
Definition evolves (t t' : EscrowTransaction) : Prop :=
  sender t' = sender t ∧ recipient t' = recipient t ∧ amount t' = amount t ∧
  createdAt t' = createdAt t ∧ releaseTime t' = releaseTime t ∧
  (isReleased t = true → isReleased t' = true) ∧
  (isReturned t = true → isReturned t' = true) ∧
  (isActive t = false → isActive t' = false).

(** ** The event log as a mirror of the ledger *)

(** Every event speaks of a stored record with the reported data and
    flag, and every stored record and every set flag has its event. *)
Record log_mirrors (m : gmap N EscrowTransaction) (evs : list event) : Prop := {
  log_created : ∀ id f r v rel, EscrowCreated id f r v rel ∈ evs →
    ∃ t, m !! id = Some t ∧ sender t = f ∧ recipient t = r ∧
         amount t = v ∧ releaseTime t = rel;
  log_released : ∀ id to v, EscrowReleased id to v ∈ evs →
    ∃ t, m !! id = Some t ∧ isReleased t = true ∧
         recipient t = to ∧ amount t = v;
  log_returned : ∀ id to v, EscrowReturned id to v ∈ evs →
    ∃ t, m !! id = Some t ∧ isReturned t = true ∧
         sender t = to ∧ amount t = v;
  stored_created : ∀ id t, m !! id = Some t →
    EscrowCreated id (sender t) (recipient t) (amount t) (releaseTime t) ∈ evs;
  stored_released : ∀ id t, m !! id = Some t → isReleased t = true →
    EscrowReleased id (recipient t) (amount t) ∈ evs;
  stored_returned : ∀ id t, m !! id = Some t → isReturned t = true →
    EscrowReturned id (sender t) (amount t) ∈ evs
}.

(** ** The page (pages/index.tsx)

    The page keeps, per escrow, what it read from the contract, and counts
    [timeRemaining] down locally.  Its numbers are JavaScript numbers that
    hold integers; they are modelled as [Z], which is exact below 2^53. *)

Record UiEscrowTransaction : Type := {
  ui_id : string;
  ui_sender : string;
  ui_recipient : string;
  ui_amount : string;
  ui_createdAt : Z;
  ui_releaseTime : Z;
  ui_isReleased : bool;
  ui_isReturned : bool;
  ui_isActive : bool;
  ui_timeRemaining : Z;
  ui_canReturn : bool;
  ui_canRelease : bool
}.

(** [{...escrow, timeRemaining: Math.max(0, escrow.timeRemaining - 1)}] *)
Definition tick_escrow (escrow : UiEscrowTransaction) : UiEscrowTransaction :=
  {| ui_id := ui_id escrow; ui_sender := ui_sender escrow;
     ui_recipient := ui_recipient escrow; ui_amount := ui_amount escrow;
     ui_createdAt := ui_createdAt escrow;
     ui_releaseTime := ui_releaseTime escrow;
     ui_isReleased := ui_isReleased escrow;
     ui_isReturned := ui_isReturned escrow;
     ui_isActive := ui_isActive escrow;
     ui_timeRemaining := Z.max 0 (ui_timeRemaining escrow - 1);
     ui_canReturn := ui_canReturn escrow;
     ui_canRelease := ui_canRelease escrow |}.

(** The state update of the one-second timer:
    [prev.map(escrow => ...)]. *)
Definition tick (prev : list UiEscrowTransaction) : list UiEscrowTransaction :=
  map tick_escrow prev.

Definition formatTimeRemaining (seconds : Z) : string :=
  if (seconds <=? 0)%Z then "Expired"
  else
    let days := (seconds / 86400)%Z in
    let hours := ((seconds mod 86400) / 3600)%Z in
    let minutes := ((seconds mod 3600) / 60)%Z in
    let secs := (seconds mod 60)%Z in
    if (0 <? days)%Z
    then pretty days +:+ "d " +:+ pretty hours +:+ "h " +:+
         pretty minutes +:+ "m"
    else if (0 <? hours)%Z
    then pretty hours +:+ "h " +:+ pretty minutes +:+ "m " +:+
         pretty secs +:+ "s"
    else if (0 <? minutes)%Z
    then pretty minutes +:+ "m " +:+ pretty secs +:+ "s"
    else pretty secs +:+ "s".

(** The last character of a string, to tell the page's outputs apart. *)
Fixpoint last_char (s : string) : option Ascii.ascii :=
  match s with
  | EmptyString => None
  | String c EmptyString => Some c
  | String _ s' => last_char s'
  end.

(** The payment a settlement event reports. *)
Definition payment_of (ev : event) : option (address * uint256) :=
  match ev with
  | EscrowReleased _ to value | EscrowReturned _ to value => Some (to, value)
  | EscrowCreated _ _ _ _ _ => None
  end.

(** ** More sample data *)

(** A third party, and the page's entry for the sample escrow as read at
    time 100. *)
Definition carol : address := 3.

Definition sample_ui : UiEscrowTransaction :=
  {| ui_id := "0x01"; ui_sender := "0x1"; ui_recipient := "0x2";
     ui_amount := "0.00000000000000001"; ui_createdAt := 0;
     ui_releaseTime := 300; ui_isReleased := false; ui_isReturned := false;
     ui_isActive := true; ui_timeRemaining := 200; ui_canReturn := true;
     ui_canRelease := false |}.

(** * Proofs *)

(** ** The packed encoding determines the counter *)

Lemma be_bytes_length width x : length (be_bytes width x) = width.
Proof.
  revert x. induction width as [|w IH]; intros x; simpl; [done|].
  rewrite length_app, IH. simpl. lia.
Qed.

Lemma be_bytes_mod width x y :
  be_bytes width x = be_bytes width y →
  x mod 256 ^ N.of_nat width = y mod 256 ^ N.of_nat width.
Proof.
  revert x y. induction width as [|w IH]; intros x y Heq.
  - simpl. by rewrite !N.mod_1_r.
  - simpl in Heq. apply app_inj_2 in Heq as [Hhi Hlo]; [|done].
    apply IH in Hhi. injection Hlo as Hlo.
    rewrite Nat2N.inj_succ, N.pow_succ_r'.
    rewrite !N.Div0.mod_mul_r. congruence.
Qed.

Lemma be_bytes_inj width x y :
  x < 256 ^ N.of_nat width → y < 256 ^ N.of_nat width →
  be_bytes width x = be_bytes width y → x = y.
Proof.
  intros Hx Hy Heq. apply be_bytes_mod in Heq.
  by rewrite !N.mod_small in Heq.
Qed.

Lemma encodePacked_count from to value timestamp count
    from' to' value' timestamp' count' :
  count ≤ UINT256_MAX → count' ≤ UINT256_MAX →
  encodePacked from to value timestamp count =
    encodePacked from' to' value' timestamp' count' →
  count = count'.
Proof.
  intros Hc Hc'. unfold encodePacked. rewrite !(assoc_L (++)).
  intros Heq. apply app_inj_2 in Heq as [_ Heq];
    [|by rewrite !be_bytes_length].
  apply be_bytes_inj in Heq; [done| |];
    unfold UINT256_MAX in *; change (256 ^ N.of_nat 32) with (2 ^ 256); lia.
Qed.

(** ** What each function does *)

Ltac unfold_sol :=
  cbv [createEscrow releaseEscrow returnEscrow nonReentrant onlyParties
       escrowExists payable bind ret gets modify require revert emit load
       store push checked_add checked_sub getEscrow getUserEscrows
       getEscrowStatus canReturn canRelease call_value].

Ltac bool_facts :=
  repeat match goal with
  | H : negb _ = true |- _ => apply negb_true_iff in H
  | H : negb _ = false |- _ => apply negb_false_iff in H
  | H : _ && _ = true |- _ => apply andb_true_iff in H as [? ?]
  | H : _ || _ = false |- _ => apply orb_false_iff in H as [? ?]
  | H : (_ =? _) = true |- _ => apply N.eqb_eq in H
  | H : (_ =? _) = false |- _ => apply N.eqb_neq in H
  | H : (_ <? _) = true |- _ => apply N.ltb_lt in H
  | H : (_ <? _) = false |- _ => apply N.ltb_ge in H
  | H : (_ <=? _) = true |- _ => apply N.leb_le in H
  | H : (_ <=? _) = false |- _ => apply N.leb_gt in H
  end.

Section Functions.

Variable keccak256 : list N → N.

Lemma in_flight_escrows mark escrowId st :
  escrows (in_flight mark escrowId st) =
  <[escrowId := set_isActive false (mark true (escrows st !!! escrowId))]>
    (escrows st).
Proof.
  unfold in_flight. simpl.
  by rewrite lookup_total_insert_eq, insert_insert_eq.
Qed.

Lemma exec_create_inv now from value r st x st' :
  exec keccak256 now (CreateEscrow from value r) st = Ok x st' →
  0 < value ∧ r ≠ 0 ∧ r ≠ from ∧ escrowCount st + 1 ≤ UINT256_MAX ∧
  now + RETURN_WINDOW ≤ UINT256_MAX ∧
  x = Some (new_id keccak256 now from value r st) ∧
  st' = created keccak256 now from value r st.
Proof.
  cbv [exec]. unfold_sol. intros H.
  repeat case_match; simplify_eq; bool_facts.
  simpl in *. repeat split; done.
Qed.

Lemma exec_create_Ok now from value r st :
  0 < value → r ≠ 0 → r ≠ from → escrowCount st + 1 ≤ UINT256_MAX →
  now + RETURN_WINDOW ≤ UINT256_MAX →
  exec keccak256 now (CreateEscrow from value r) st =
    Ok (Some (new_id keccak256 now from value r st))
       (created keccak256 now from value r st).
Proof.
  intros Hv Hr Hs Hc Ht. cbv [exec]. unfold_sol. simpl.
  apply N.ltb_lt in Hv as ->. apply N.eqb_neq in Hr as ->.
  apply N.eqb_neq in Hs as ->. simpl.
  apply N.leb_le in Hc as ->. apply N.leb_le in Ht as ->. done.
Qed.

Lemma releaseEscrow_inv send e escrowId st u st' :
  releaseEscrow send e escrowId st = Ok u st' →
  let t := escrows st !!! escrowId in
  _locked st = false ∧ isActive t = true ∧ msg_sender e = recipient t ∧
  isReleased t = false ∧ isReturned t = false ∧
  releaseTime t ≤ block_timestamp e ∧
  ∃ st2,
    send (recipient t) (amount t) (in_flight set_isReleased escrowId st)
      = Ok true st2 ∧
    st' = with_locked false
            (with_event (EscrowReleased escrowId (recipient t) (amount t)) st2).
Proof.
  unfold_sol. intros H.
  repeat case_match; simplify_eq; bool_facts. simpl in *.
  rewrite !lookup_total_insert_eq in *. simpl in *.
  repeat split; try done. eexists; split; [eassumption|done].
Qed.

Lemma releaseEscrow_Ok send e escrowId st st2 :
  let t := escrows st !!! escrowId in
  _locked st = false → isActive t = true → msg_sender e = recipient t →
  isReleased t = false → isReturned t = false →
  releaseTime t ≤ block_timestamp e →
  send (recipient t) (amount t) (in_flight set_isReleased escrowId st)
    = Ok true st2 →
  releaseEscrow send e escrowId st =
    Ok tt (with_locked false
             (with_event (EscrowReleased escrowId (recipient t) (amount t)) st2)).
Proof.
  intros t Hl Ha Hs Hr1 Hr2 Ht Hsend. subst t. unfold_sol.
  apply N.leb_le in Ht. unfold in_flight in Hsend.
  repeat (progress (simpl; rewrite ?Hl, ?Ha, ?Hs, ?N.eqb_refl, ?orb_true_r,
                      ?Hr1, ?Hr2, ?Ht, ?lookup_total_insert_eq, ?Hsend)).
  done.
Qed.

Lemma returnEscrow_inv send e escrowId st u st' :
  returnEscrow send e escrowId st = Ok u st' →
  let t := escrows st !!! escrowId in
  _locked st = false ∧ isActive t = true ∧ msg_sender e = sender t ∧
  isReleased t = false ∧ isReturned t = false ∧
  block_timestamp e < releaseTime t ∧
  ∃ st2,
    send (sender t) (amount t) (in_flight set_isReturned escrowId st)
      = Ok true st2 ∧
    st' = with_locked false
            (with_event (EscrowReturned escrowId (sender t) (amount t)) st2).
Proof.
  unfold_sol. intros H.
  repeat case_match; simplify_eq; bool_facts. simpl in *.
  rewrite !lookup_total_insert_eq in *. simpl in *.
  repeat split; try done. eexists; split; [eassumption|done].
Qed.

Lemma returnEscrow_Ok send e escrowId st st2 :
  let t := escrows st !!! escrowId in
  _locked st = false → isActive t = true → msg_sender e = sender t →
  isReleased t = false → isReturned t = false →
  block_timestamp e < releaseTime t →
  send (sender t) (amount t) (in_flight set_isReturned escrowId st)
    = Ok true st2 →
  returnEscrow send e escrowId st =
    Ok tt (with_locked false
             (with_event (EscrowReturned escrowId (sender t) (amount t)) st2)).
Proof.
  intros t Hl Ha Hs Hr1 Hr2 Ht Hsend. subst t. unfold_sol.
  apply N.ltb_lt in Ht. unfold in_flight in Hsend.
  repeat (progress (simpl; rewrite ?Hl, ?Ha, ?Hs, ?N.eqb_refl, ?orb_true_r,
                      ?Hr1, ?Hr2, ?Ht, ?lookup_total_insert_eq, ?Hsend)).
  done.
Qed.

(** The guard and the existence check come first. *)
Lemma releaseEscrow_locked send e escrowId st :
  _locked st = true → releaseEscrow send e escrowId st = Revert ReentrantCall.
Proof. intros H. unfold_sol. by rewrite H. Qed.

Lemma returnEscrow_locked send e escrowId st :
  _locked st = true → returnEscrow send e escrowId st = Revert ReentrantCall.
Proof. intros H. unfold_sol. by rewrite H. Qed.

Lemma releaseEscrow_inactive send e escrowId st :
  _locked st = false → isActive (escrows st !!! escrowId) = false →
  releaseEscrow send e escrowId st = Revert EscrowDoesNotExist.
Proof. intros Hl H. unfold_sol. rewrite Hl. simpl. by rewrite H. Qed.

Lemma returnEscrow_inactive send e escrowId st :
  _locked st = false → isActive (escrows st !!! escrowId) = false →
  returnEscrow send e escrowId st = Revert EscrowDoesNotExist.
Proof. intros Hl H. unfold_sol. rewrite Hl. simpl. by rewrite H. Qed.

Lemma call_value_inv f accepts to value st st2 :
  call_value f accepts to value st = Ok true st2 →
  value ≤ balance st ∧ accepts = true ∧ st2 = f (paid to value st).
Proof.
  unfold call_value, paid. intros H.
  repeat case_match; simplify_eq; bool_facts. done.
Qed.

Lemma call_value_Ok f to value st :
  value ≤ balance st →
  call_value f true to value st = Ok true (f (paid to value st)).
Proof.
  unfold call_value, paid. intros H. by apply N.ltb_ge in H as ->.
Qed.

Lemma call_value_fails f accepts to value st :
  accepts = false ∨ balance st < value →
  call_value f accepts to value st = Ok false st.
Proof.
  unfold call_value. intros [-> | H]; [by case_match|].
  by apply N.ltb_lt in H as ->.
Qed.

Lemma exec_release_unfold now from escrowId payee accepts :
  exec keccak256 now (ReleaseEscrow from escrowId payee accepts) =
  (releaseEscrow (call_value (react keccak256 now payee) accepts)
     {| msg_sender := from; msg_value := 0; block_timestamp := now |}
     escrowId >> ret None).
Proof. reflexivity. Qed.

Lemma exec_return_unfold now from escrowId payee accepts :
  exec keccak256 now (ReturnEscrow from escrowId payee accepts) =
  (returnEscrow (call_value (react keccak256 now payee) accepts)
     {| msg_sender := from; msg_value := 0; block_timestamp := now |}
     escrowId >> ret None).
Proof. reflexivity. Qed.

Lemma exec_release_inv now from escrowId payee accepts st x st' :
  exec keccak256 now (ReleaseEscrow from escrowId payee accepts) st = Ok x st' →
  let t := escrows st !!! escrowId in
  _locked st = false ∧ isActive t = true ∧ from = recipient t ∧
  isReleased t = false ∧ isReturned t = false ∧ releaseTime t ≤ now ∧
  amount t ≤ balance st ∧ accepts = true ∧ x = None ∧
  st' = with_locked false
          (with_event (EscrowReleased escrowId (recipient t) (amount t))
             (react keccak256 now payee
                (paid (recipient t) (amount t)
                   (in_flight set_isReleased escrowId st)))).
Proof.
  rewrite exec_release_unfold. unfold bind at 1, ret.
  destruct (releaseEscrow _ _ _ _) as [[] st1|] eqn:H; [|done].
  intros [= <- <-].
  apply releaseEscrow_inv in H as (?&?&?&?&?&?&st2&Hsend&->).
  apply call_value_inv in Hsend as (?&?&->). done.
Qed.

Lemma exec_return_inv now from escrowId payee accepts st x st' :
  exec keccak256 now (ReturnEscrow from escrowId payee accepts) st = Ok x st' →
  let t := escrows st !!! escrowId in
  _locked st = false ∧ isActive t = true ∧ from = sender t ∧
  isReleased t = false ∧ isReturned t = false ∧ now < releaseTime t ∧
  amount t ≤ balance st ∧ accepts = true ∧ x = None ∧
  st' = with_locked false
          (with_event (EscrowReturned escrowId (sender t) (amount t))
             (react keccak256 now payee
                (paid (sender t) (amount t)
                   (in_flight set_isReturned escrowId st)))).
Proof.
  rewrite exec_return_unfold. unfold bind at 1, ret.
  destruct (returnEscrow _ _ _ _) as [[] st1|] eqn:H; [|done].
  intros [= <- <-].
  apply returnEscrow_inv in H as (?&?&?&?&?&?&st2&Hsend&->).
  apply call_value_inv in Hsend as (?&?&->). done.
Qed.

Lemma exec_release_Ok now from escrowId payee st :
  let t := escrows st !!! escrowId in
  _locked st = false → isActive t = true → from = recipient t →
  isReleased t = false → isReturned t = false → releaseTime t ≤ now →
  amount t ≤ balance st →
  exec keccak256 now (ReleaseEscrow from escrowId payee true) st =
    Ok None
      (with_locked false
         (with_event (EscrowReleased escrowId (recipient t) (amount t))
            (react keccak256 now payee
               (paid (recipient t) (amount t)
                  (in_flight set_isReleased escrowId st))))).
Proof.
  intros t ? ? ? ? ? ? ?. rewrite exec_release_unfold. unfold bind at 1, ret.
  erewrite releaseEscrow_Ok; try done.
  by apply call_value_Ok.
Qed.

Lemma exec_return_Ok now from escrowId payee st :
  let t := escrows st !!! escrowId in
  _locked st = false → isActive t = true → from = sender t →
  isReleased t = false → isReturned t = false → now < releaseTime t →
  amount t ≤ balance st →
  exec keccak256 now (ReturnEscrow from escrowId payee true) st =
    Ok None
      (with_locked false
         (with_event (EscrowReturned escrowId (sender t) (amount t))
            (react keccak256 now payee
               (paid (sender t) (amount t)
                  (in_flight set_isReturned escrowId st))))).
Proof.
  intros t ? ? ? ? ? ? ?. rewrite exec_return_unfold. unfold bind at 1, ret.
  erewrite returnEscrow_Ok; try done.
  by apply call_value_Ok.
Qed.

End Functions.

(** ** The ledger invariant *)

Lemma lookup_total_active (m : gmap N EscrowTransaction) id :
  isActive (m !!! id) = true → m !! id = Some (m !!! id).
Proof.
  rewrite lookup_total_alt. by destruct (m !! id).
Qed.

Lemma lookup_total_Some (m : gmap N EscrowTransaction) id t :
  m !! id = Some t → m !!! id = t.
Proof. intros H. by rewrite lookup_total_alt, H. Qed.

Lemma well_formed_settle mark t :
  mark = set_isReleased ∨ mark = set_isReturned →
  well_formed t → isReleased t = false → isReturned t = false →
  well_formed (set_isActive false (mark true t)).
Proof.
  intros Hm (?&?&?&?&?&?) Hr1 Hr2. unfold well_formed.
  destruct Hm as [-> | ->]; simpl; rewrite ?Hr1, ?Hr2; done.
Qed.

Section Invariant.

Variable keccak256 : list N → N.
Hypothesis keccak256_inj : collision_free keccak256.

Lemma extends_refl st : extends st st.
Proof. by repeat split. Qed.

Lemma extends_trans st1 st2 st3 :
  extends st1 st2 → extends st2 st3 → extends st1 st3.
Proof.
  intros (H1&H2&H3&H4) (G1&G2&G3&G4). repeat split.
  - intros id t Ht. by apply G1, H1.
  - lia.
  - congruence.
  - congruence.
Qed.

Lemma ledger_ok_init : ledger_ok keccak256 init_state.
Proof.
  split; simpl; try done.
  - intros id ?%elem_of_nil. done.
  - constructor.
Qed.

Lemma new_id_fresh now from value r st :
  ledger_ok keccak256 st →
  escrows st !! new_id keccak256 now from value r st = None.
Proof.
  intros Hok. destruct (escrows st !! _) as [t|] eqn:H; [|done].
  apply (ok_minted _ _ Hok) in H as (f&to&v&ts&c&Hc&Heq).
  pose proof (ok_count _ _ Hok) as Hmax.
  apply keccak256_inj, encodePacked_count in Heq; lia.
Qed.

Lemma settled_created now from value r st :
  settled (created keccak256 now from value r st) = settled st.
Proof.
  unfold settled, created. simpl. rewrite omap_app. simpl.
  by rewrite app_nil_r.
Qed.

Lemma created_ledger_ok now from value r st :
  ledger_ok keccak256 st → 0 < value → r ≠ 0 → r ≠ from →
  escrowCount st + 1 ≤ UINT256_MAX →
  ledger_ok keccak256 (created keccak256 now from value r st) ∧
  extends st (created keccak256 now from value r st).
Proof.
  intros Hok Hv Hr Hs Hc.
  pose proof (new_id_fresh now from value r st Hok) as Hfresh.
  split; [split|].
  - simpl. done.
  - intros id t. simpl. rewrite lookup_insert_Some.
    intros [[<- _] | [_ H]].
    + exists from, r, value, now, (escrowCount st). split; [simpl; lia|done].
    + apply (ok_minted _ _ Hok) in H as (f&to&v&ts&c&?&?).
      exists f, to, v, ts, c. split; [simpl; lia|done].
  - intros id. rewrite settled_created. intros Hin.
    destruct (ok_settled _ _ Hok id Hin) as (t&Ht&Ha).
    exists t. split; [|done]. simpl. rewrite lookup_insert_ne; [done|].
    intros <-. congruence.
  - rewrite settled_created. by apply ok_once in Hok.
  - repeat split.
    + intros id t Ht. simpl. rewrite lookup_insert_ne; [done|].
      intros <-. congruence.
    + simpl. lia.
    + apply settled_created.
Qed.

Lemma commit_locked now c st :
  ledger_ok keccak256 st → _locked st = true →
  ledger_ok keccak256 (commit (exec keccak256 now c) st) ∧
  extends st (commit (exec keccak256 now c) st).
Proof.
  intros Hok Hl. unfold commit.
  destruct (exec keccak256 now c st) as [x st'|] eqn:H;
    [|split; [done | apply extends_refl]].
  destruct c.
  - apply exec_create_inv in H as (?&?&?&?&?&->&->).
    by apply created_ledger_ok.
  - apply exec_release_inv in H as (?&_). congruence.
  - apply exec_return_inv in H as (?&_). congruence.
Qed.

(** While the guard is taken, whatever the payee does keeps the invariant
    and every stored record, and settles nothing. *)
Lemma react_locked now payee st :
  ledger_ok keccak256 st → _locked st = true →
  ledger_ok keccak256 (react keccak256 now payee st) ∧
  extends st (react keccak256 now payee st).
Proof.
  revert st. induction payee as [|c payee IH]; intros st Hok Hl.
  - split; [done | apply extends_refl].
  - change (react keccak256 now (c :: payee) st)
      with (react keccak256 now payee (commit (exec keccak256 now c) st)).
    destruct (commit_locked now c st Hok Hl) as [Hok1 Hext1].
    destruct (IH _ Hok1) as [Hok2 Hext2].
    + destruct Hext1 as (_&_&_&->). done.
    + split; [done | by eapply extends_trans].
Qed.

Lemma in_flight_ledger_ok mark escrowId to value st :
  mark = set_isReleased ∨ mark = set_isReturned →
  ledger_ok keccak256 st →
  isActive (escrows st !!! escrowId) = true →
  isReleased (escrows st !!! escrowId) = false →
  isReturned (escrows st !!! escrowId) = false →
  ledger_ok keccak256 (paid to value (in_flight mark escrowId st)).
Proof.
  intros Hm Hok Ha Hr1 Hr2.
  pose proof (lookup_total_active _ _ Ha) as Hsome.
  assert (Hesc : escrows (paid to value (in_flight mark escrowId st)) =
    <[escrowId := set_isActive false (mark true (escrows st !!! escrowId))]>
      (escrows st)) by apply in_flight_escrows.
  split.
  - by apply ok_count in Hok.
  - intros id t. rewrite Hesc, lookup_insert_Some.
    intros [[<- _] | [_ H]]; [apply (ok_minted _ _ Hok) in Hsome
                             | apply (ok_minted _ _ Hok) in H]; done.
  - intros id.
    change (settled (paid to value (in_flight mark escrowId st)))
      with (settled st).
    intros Hin. rewrite Hesc.
    destruct (decide (escrowId = id)) as [<- | Hne].
    + rewrite lookup_insert_eq. by eexists.
    + rewrite lookup_insert_ne by done. by apply (ok_settled _ _ Hok) in Hin.
  - by apply ok_once in Hok.
Qed.

Lemma active_not_settled st escrowId :
  ledger_ok keccak256 st → isActive (escrows st !!! escrowId) = true →
  escrowId ∉ settled st.
Proof.
  intros Hok Ha Hin. apply (ok_settled _ _ Hok) in Hin as (t&Ht&Hf).
  apply lookup_total_Some in Ht. congruence.
Qed.

(** Emitting the settlement event and dropping the guard. *)
Lemma settle_ledger_ok ev escrowId st :
  settled_id ev = Some escrowId →
  ledger_ok keccak256 st → escrowId ∉ settled st →
  (∃ t, escrows st !! escrowId = Some t ∧ isActive t = false) →
  ledger_ok keccak256 (with_locked false (with_event ev st)).
Proof.
  intros Hs Hok Hnotin Hrec.
  assert (Hset : settled (with_locked false (with_event ev st)) =
                 settled st ++ [escrowId]).
  { unfold settled. simpl. rewrite omap_app. simpl. by rewrite Hs. }
  split.
  - by apply ok_count in Hok.
  - intros id t H. by apply (ok_minted _ _ Hok) in H.
  - intros id. rewrite Hset, elem_of_app, list_elem_of_singleton.
    intros [Hin | ->]; [by apply (ok_settled _ _ Hok) | done].
  - rewrite Hset. apply NoDup_app. split; [by apply ok_once in Hok|].
    split; [|apply NoDup_singleton].
    intros x Hx ->%list_elem_of_singleton. done.
Qed.

(** A whole release or return, from the checks' success to the end. *)
Lemma settle_step mark ev now payee escrowId to value st :
  mark = set_isReleased ∨ mark = set_isReturned →
  settled_id ev = Some escrowId →
  ledger_ok keccak256 st →
  isActive (escrows st !!! escrowId) = true →
  isReleased (escrows st !!! escrowId) = false →
  isReturned (escrows st !!! escrowId) = false →
  let st' := with_locked false (with_event ev
               (react keccak256 now payee
                  (paid to value (in_flight mark escrowId st)))) in
  ledger_ok keccak256 st' ∧
  settled st' = settled st ++ [escrowId] ∧
  escrows st' !! escrowId =
    Some (set_isActive false (mark true (escrows st !!! escrowId))) ∧
  (∀ id t, escrows st !! id = Some t → id ≠ escrowId →
           escrows st' !! id = Some t) ∧
  escrowCount st ≤ escrowCount st'.
Proof.
  intros Hm Hs Hok Ha Hr1 Hr2.
  set (s1 := paid to value (in_flight mark escrowId st)).
  pose proof (in_flight_ledger_ok mark escrowId to value st Hm Hok Ha Hr1 Hr2)
    as Hok1. fold s1 in Hok1.
  destruct (react_locked now payee s1 Hok1 eq_refl) as [Hok2 Hext].
  set (s2 := react keccak256 now payee s1) in *.
  destruct Hext as (Hkeep&Hcount&Hset&_).
  assert (Hesc1 : escrows s1 =
    <[escrowId := set_isActive false (mark true (escrows st !!! escrowId))]>
      (escrows st)) by apply in_flight_escrows.
  assert (Hrec : escrows s2 !! escrowId =
    Some (set_isActive false (mark true (escrows st !!! escrowId)))).
  { apply Hkeep. by rewrite Hesc1, lookup_insert_eq. }
  assert (Hnotin : escrowId ∉ settled s2).
  { rewrite Hset. by apply (active_not_settled st). }
  simpl. split_and!.
  - apply (settle_ledger_ok ev escrowId); try done. by eexists.
  - unfold settled in *. simpl. rewrite omap_app. simpl.
    by rewrite Hs, Hset.
  - done.
  - intros id t Ht Hne. apply Hkeep. by rewrite Hesc1, lookup_insert_ne.
  - done.
Qed.

(** One successful call, from any state that satisfies the invariant. *)
Lemma exec_step now c st x st' :
  ledger_ok keccak256 st → exec keccak256 now c st = Ok x st' →
  ledger_ok keccak256 st' ∧
  _locked st' = _locked st ∧
  escrowCount st ≤ escrowCount st' ∧
  (∀ id, is_Some (escrows st !! id) → is_Some (escrows st' !! id)) ∧
  (∀ id t, escrows st !! id = Some t → isActive t = false →
           escrows st' !! id = Some t).
Proof.
  intros Hok H. destruct c as [from value r | from id payee acc
                              | from id payee acc].
  - apply exec_create_inv in H as (?&?&?&?&?&->&->).
    destruct (created_ledger_ok now from value r st) as [Hok' Hext];
      try done.
    destruct Hext as (Hkeep&?&?&?). split_and!; try done.
    + intros id [t Ht]. exists t. by apply Hkeep.
    + intros id t Ht _. by apply Hkeep.
  - apply exec_release_inv in H as (Hl&Ha&?&Hr1&Hr2&?&?&?&->&->).
    edestruct (settle_step set_isReleased) as (Hok'&?&Hrec&Hkeep&?);
      [by left|..|split_and!; [apply Hok'|done|done| |]]; try done.
    + intros i [t Ht]. destruct (decide (i = id)) as [->|Hne].
      * rewrite Hrec. by eexists.
      * exists t. by apply Hkeep.
    + intros i t Ht Hf. apply Hkeep; [done|].
      intros ->. apply lookup_total_Some in Ht. congruence.
  - apply exec_return_inv in H as (Hl&Ha&?&Hr1&Hr2&?&?&?&->&->).
    edestruct (settle_step set_isReturned) as (Hok'&?&Hrec&Hkeep&?);
      [by right|..|split_and!; [apply Hok'|done|done| |]]; try done.
    + intros i [t Ht]. destruct (decide (i = id)) as [->|Hne].
      * rewrite Hrec. by eexists.
      * exists t. by apply Hkeep.
    + intros i t Ht Hf. apply Hkeep; [done|].
      intros ->. apply lookup_total_Some in Ht. congruence.
Qed.

Lemma reachable_ok st :
  reachable keccak256 st → ledger_ok keccak256 st ∧ _locked st = false.
Proof.
  induction 1 as [|st now c _ [Hok Hl]].
  - split; [apply ledger_ok_init | done].
  - unfold transact, commit.
    destruct (exec keccak256 now c st) as [x st'|] eqn:H; [|done].
    apply exec_step in H as (?&?&_); [|done]. split; congruence.
Qed.

End Invariant.

(** ** The store invariant (needs nothing of [keccak256]) *)

Section Store.

Variable keccak256 : list N → N.

Lemma store_ok_init : store_ok init_state.
Proof.
  split.
  - intros id t. simpl. by rewrite lookup_empty.
  - intros id. unfold created_ids. simpl. rewrite lookup_empty.
    split; [by intros ?%elem_of_nil | by intros [? ?]].
Qed.

Lemma created_store_ok now from value r st :
  store_ok st → 0 < value → r ≠ 0 → r ≠ from →
  store_ok (created keccak256 now from value r st).
Proof.
  intros Hok Hv Hr Hs. split.
  - intros id t. simpl. rewrite lookup_insert_Some.
    intros [[_ <-] | [_ H]]; [|by eapply ok_record].
    repeat split; simpl; done.
  - intros id. unfold created_ids. simpl.
    rewrite omap_app, elem_of_app, lookup_insert_is_Some. simpl.
    rewrite list_elem_of_singleton.
    pose proof (ok_created _ Hok id) as Hiff. unfold created_ids in Hiff.
    rewrite Hiff. split.
    + intros [H | ->]; [|by left].
      destruct (decide (new_id keccak256 now from value r st = id));
        [by left | by right].
    + intros [<- | [_ H]]; [by right | by left].
Qed.

Lemma commit_store_ok_locked now c st :
  store_ok st → _locked st = true →
  store_ok (commit (exec keccak256 now c) st) ∧
  _locked (commit (exec keccak256 now c) st) = true.
Proof.
  intros Hok Hl. unfold commit.
  destruct (exec keccak256 now c st) as [x st'|] eqn:H; [|done].
  destruct c.
  - apply exec_create_inv in H as (?&?&?&?&?&->&->).
    split; [by apply created_store_ok | done].
  - apply exec_release_inv in H as (?&_). congruence.
  - apply exec_return_inv in H as (?&_). congruence.
Qed.

Lemma react_store_ok now payee st :
  store_ok st → _locked st = true →
  store_ok (react keccak256 now payee st).
Proof.
  revert st. induction payee as [|c payee IH]; intros st Hok Hl; [done|].
  change (react keccak256 now (c :: payee) st)
    with (react keccak256 now payee (commit (exec keccak256 now c) st)).
  destruct (commit_store_ok_locked now c st Hok Hl). by apply IH.
Qed.

Lemma in_flight_store_ok mark escrowId to value st :
  mark = set_isReleased ∨ mark = set_isReturned →
  store_ok st →
  isActive (escrows st !!! escrowId) = true →
  isReleased (escrows st !!! escrowId) = false →
  isReturned (escrows st !!! escrowId) = false →
  store_ok (paid to value (in_flight mark escrowId st)).
Proof.
  intros Hm Hok Ha Hr1 Hr2.
  pose proof (lookup_total_active _ _ Ha) as Hsome.
  assert (Hesc : escrows (paid to value (in_flight mark escrowId st)) =
    <[escrowId := set_isActive false (mark true (escrows st !!! escrowId))]>
      (escrows st)) by apply in_flight_escrows.
  split.
  - intros id t. rewrite Hesc, lookup_insert_Some.
    intros [[_ <-] | [_ H]]; [|by eapply ok_record].
    apply well_formed_settle; try done. by eapply ok_record.
  - intros id. rewrite Hesc, lookup_insert_is_Some.
    change (created_ids (paid to value (in_flight mark escrowId st)))
      with (created_ids st).
    rewrite (ok_created _ Hok id). split; [|by intros [<- | [_ ?]]].
    intros H. destruct (decide (escrowId = id)); [by left | by right].
Qed.

Lemma event_store_ok ev st :
  created_id ev = None → store_ok st →
  store_ok (with_locked false (with_event ev st)).
Proof.
  intros Hc Hok.
  assert (Hcre : created_ids (with_locked false (with_event ev st)) =
                 created_ids st).
  { unfold created_ids. simpl. rewrite omap_app. simpl.
    by rewrite Hc, app_nil_r. }
  split.
  - intros id t H. by apply (ok_record _ Hok) in H.
  - intros id. rewrite Hcre. apply (ok_created _ Hok).
Qed.

Lemma exec_store_ok now c st x st' :
  store_ok st → exec keccak256 now c st = Ok x st' → store_ok st'.
Proof.
  intros Hok H. destruct c as [from value r | from id payee acc
                              | from id payee acc].
  - apply exec_create_inv in H as (?&?&?&?&?&->&->).
    by apply created_store_ok.
  - apply exec_release_inv in H as (Hl&Ha&?&Hr1&Hr2&?&?&?&->&->).
    apply event_store_ok; [done|]. apply react_store_ok; [|done].
    apply in_flight_store_ok; auto.
  - apply exec_return_inv in H as (Hl&Ha&?&Hr1&Hr2&?&?&?&->&->).
    apply event_store_ok; [done|]. apply react_store_ok; [|done].
    apply in_flight_store_ok; auto.
Qed.

Lemma transact_store_ok now c st :
  store_ok st → store_ok (transact keccak256 now c st).
Proof.
  intros Hok. unfold transact, commit.
  destruct (exec keccak256 now c st) eqn:H; [|done].
  by eapply exec_store_ok.
Qed.

Lemma reachable_store_ok st : reachable keccak256 st → store_ok st.
Proof.
  induction 1; [apply store_ok_init | by apply transact_store_ok].
Qed.

Lemma run_store_ok txs st : store_ok st → store_ok (run keccak256 st txs).
Proof.
  revert st. induction txs as [|[now c] txs IH]; intros st Hok; [done|].
  simpl. by apply IH, transact_store_ok.
Qed.

Lemma well_formed_not_zero t : well_formed t → t ≠ zero_escrow.
Proof. intros (H&_) ->. by apply H. Qed.

End Store.

(** ** Sequences of transactions *)

Section Traces.

Variable keccak256 : list N → N.
Hypothesis keccak256_inj : collision_free keccak256.

Lemma run_app st txs1 txs2 :
  run keccak256 st (txs1 ++ txs2) = run keccak256 (run keccak256 st txs1) txs2.
Proof.
  revert st. induction txs1 as [|[now c] txs1 IH]; intros st; [done|].
  simpl. apply IH.
Qed.

Lemma run_reachable st txs :
  reachable keccak256 st → reachable keccak256 (run keccak256 st txs).
Proof.
  revert st. induction txs as [|[now c] txs IH]; intros st H; [done|].
  simpl. apply IH. by constructor.
Qed.

Lemma succeeds_true now c st :
  succeeds keccak256 now c st = true ↔
  ∃ x st', exec keccak256 now c st = Ok x st'.
Proof.
  unfold succeeds. destruct (exec keccak256 now c st) as [x st'|e].
  - split; [by exists x, st' | done].
  - split; [done | by intros (?&?&?)].
Qed.

Lemma transact_ledger_ok now c st :
  ledger_ok keccak256 st → ledger_ok keccak256 (transact keccak256 now c st).
Proof.
  intros Hok. unfold transact, commit.
  destruct (exec keccak256 now c st) eqn:H; [|done].
  by apply exec_step in H as (?&_).
Qed.

Lemma transact_terminal now c st escrowId t :
  ledger_ok keccak256 st →
  escrows st !! escrowId = Some t → isActive t = false →
  escrows (transact keccak256 now c st) !! escrowId = Some t.
Proof.
  intros Hok Ht Hf. unfold transact, commit.
  destruct (exec keccak256 now c st) eqn:H; [|done].
  apply (exec_step keccak256 keccak256_inj) in H as (_&_&_&_&Hkeep);
    [|done]. by apply Hkeep.
Qed.

Lemma run_terminal txs st escrowId t :
  ledger_ok keccak256 st →
  escrows st !! escrowId = Some t → isActive t = false →
  escrows (run keccak256 st txs) !! escrowId = Some t.
Proof.
  revert st. induction txs as [|[now c] txs IH]; intros st Hok Ht Hf; [done|].
  simpl. apply IH; [by apply transact_ledger_ok| |done].
  by apply transact_terminal.
Qed.

(** A release or return that goes through leaves its record terminal. *)
Lemma settles_terminal now c st escrowId :
  ledger_ok keccak256 st → settles escrowId c = true →
  succeeds keccak256 now c st = true →
  terminal (transact keccak256 now c st) escrowId.
Proof.
  intros Hok Hs (x&st'&H)%succeeds_true.
  unfold transact, commit. rewrite H.
  destruct c as [| from id payee acc | from id payee acc]; [done|..];
    simpl in Hs; apply N.eqb_eq in Hs as ->.
  - apply exec_release_inv in H as (Hl&Ha&?&Hr1&Hr2&?&?&?&->&->).
    edestruct (settle_step keccak256 keccak256_inj set_isReleased)
      as (_&_&Hrec&_); [by left|..|by eexists]; done.
  - apply exec_return_inv in H as (Hl&Ha&?&Hr1&Hr2&?&?&?&->&->).
    edestruct (settle_step keccak256 keccak256_inj set_isReturned)
      as (_&_&Hrec&_); [by right|..|by eexists]; done.
Qed.

(** A release or return of a terminal record is turned down. *)
Lemma terminal_rejects now c st escrowId :
  terminal st escrowId → settles escrowId c = true →
  succeeds keccak256 now c st = false.
Proof.
  intros (t&Ht&Hf) Hs. apply lookup_total_Some in Ht.
  destruct (succeeds keccak256 now c st) eqn:H; [|done].
  apply succeeds_true in H as (x&st'&H).
  destruct c as [| from id payee acc | from id payee acc]; [done|..];
    simpl in Hs; apply N.eqb_eq in Hs as ->.
  - apply exec_release_inv in H as (_&Ha&_). congruence.
  - apply exec_return_inv in H as (_&Ha&_). congruence.
Qed.

Lemma settlements_terminal txs st escrowId :
  ledger_ok keccak256 st → terminal st escrowId →
  settlements keccak256 escrowId st txs = O.
Proof.
  revert st. induction txs as [|[now c] txs IH]; intros st Hok Ht; [done|].
  simpl. destruct (settles escrowId c) eqn:Hs; simpl.
  - rewrite (terminal_rejects now c st escrowId Ht Hs). simpl.
    destruct Ht as (t&Ht&Hf).
    apply IH; [by apply transact_ledger_ok|].
    exists t. split; [by apply transact_terminal | done].
  - destruct Ht as (t&Ht&Hf).
    apply IH; [by apply transact_ledger_ok|].
    exists t. split; [by apply transact_terminal | done].
Qed.

Lemma settlements_le_1 txs st escrowId :
  ledger_ok keccak256 st →
  (settlements keccak256 escrowId st txs ≤ 1)%nat.
Proof.
  revert st. induction txs as [|[now c] txs IH]; intros st Hok; simpl; [lia|].
  destruct (settles escrowId c && succeeds keccak256 now c st) eqn:H.
  - apply andb_true_iff in H as [Hs Hsucc].
    rewrite settlements_terminal; [lia|by apply transact_ledger_ok|].
    by apply settles_terminal.
  - simpl. apply IH. by apply transact_ledger_ok.
Qed.

Lemma locked_rejects now c st escrowId :
  _locked st = true → settles escrowId c = true →
  succeeds keccak256 now c st = false.
Proof.
  intros Hl Hs. destruct (succeeds keccak256 now c st) eqn:H; [|done].
  apply succeeds_true in H as (x&st'&H).
  destruct c as [| from id payee acc | from id payee acc]; [done|..].
  - apply exec_release_inv in H as (?&_). congruence.
  - apply exec_return_inv in H as (?&_). congruence.
Qed.

Lemma transact_unchanged now c st :
  succeeds keccak256 now c st = false → transact keccak256 now c st = st.
Proof.
  unfold succeeds, transact, commit.
  by destruct (exec keccak256 now c st).
Qed.


(** A successful [createEscrow] returns an id the ledger has no record of
    and stores a record under it. *)
Lemma exec_returns_fresh now c st escrowId st' :
  ledger_ok keccak256 st →
  exec keccak256 now c st = Ok (Some escrowId) st' →
  escrows st !! escrowId = None ∧ is_Some (escrows st' !! escrowId).
Proof.
  intros Hok H. destruct c as [from value r | |].
  - apply exec_create_inv in H as (?&?&?&?&?&[= ->]&->).
    split; [by apply new_id_fresh|]. simpl. rewrite lookup_insert_eq.
    by eexists.
  - by apply exec_release_inv in H as (_&_&_&_&_&_&_&_&?&_).
  - by apply exec_return_inv in H as (_&_&_&_&_&_&_&_&?&_).
Qed.

Lemma returned_ids_fresh txs st :
  ledger_ok keccak256 st →
  NoDup (returned_ids keccak256 st txs) ∧
  ∀ id, id ∈ returned_ids keccak256 st txs → escrows st !! id = None.
Proof.
  revert st. induction txs as [|[now c] txs IH]; intros st Hok; simpl.
  - split; [constructor | by intros id ?%elem_of_nil].
  - destruct (exec keccak256 now c st) as [[id|] st'|] eqn:H;
      [| |by apply IH].
    + destruct (exec_returns_fresh now c st id st' Hok H) as [Hnone Hsome].
      apply (exec_step keccak256 keccak256_inj) in H as (Hok'&_&_&Hdom&_);
        [|done].
      destruct (IH st' Hok') as [Hnd Hfresh]. split.
      * constructor; [|done]. intros Hin. apply Hfresh in Hin.
        rewrite Hin in Hsome. by destruct Hsome.
      * intros j [->|Hin]%elem_of_cons; [done|].
        apply Hfresh in Hin. destruct (escrows st !! j) eqn:Hj; [|done].
        destruct (Hdom j) as [? Hj']; [by eexists | congruence].
    + apply (exec_step keccak256 keccak256_inj) in H as (Hok'&_&_&Hdom&_);
        [|done].
      destruct (IH st' Hok') as [Hnd Hfresh]. split; [done|].
      intros j Hin. apply Hfresh in Hin.
      destruct (escrows st !! j) eqn:Hj; [|done].
      destruct (Hdom j) as [? Hj']; [by eexists | congruence].
Qed.

Lemma returned_ids_distinct txs :
  NoDup (returned_ids keccak256 init_state txs).
Proof. apply returned_ids_fresh, ledger_ok_init. Qed.

End Traces.

(** ** The sequence counter *)

Section Counter.

Variable keccak256 : list N → N.

Lemma commit_count_locked now c st :
  escrowCount st ≤ UINT256_MAX → _locked st = true →
  let st' := commit (exec keccak256 now c) st in
  escrowCount st' ≤ UINT256_MAX ∧ escrowCount st ≤ escrowCount st' ∧
  _locked st' = true.
Proof.
  intros Hmax Hl. unfold commit.
  destruct (exec keccak256 now c st) as [x st'|] eqn:H; [|done].
  destruct c.
  - apply exec_create_inv in H as (?&?&?&?&?&->&->). simpl.
    split_and!; [done | lia | done].
  - apply exec_release_inv in H as (?&_). congruence.
  - apply exec_return_inv in H as (?&_). congruence.
Qed.

Lemma react_count now payee st :
  escrowCount st ≤ UINT256_MAX → _locked st = true →
  escrowCount (react keccak256 now payee st) ≤ UINT256_MAX ∧
  escrowCount st ≤ escrowCount (react keccak256 now payee st).
Proof.
  revert st. induction payee as [|c payee IH]; intros st Hmax Hl; [done|].
  change (react keccak256 now (c :: payee) st)
    with (react keccak256 now payee (commit (exec keccak256 now c) st)).
  destruct (commit_count_locked now c st Hmax Hl) as (Hmax1&Hle1&Hl1).
  destruct (IH _ Hmax1 Hl1) as [Hmax2 Hle2]. split; [done | lia].
Qed.

(** The counter stays in range and never goes down; a successful
    [createEscrow] moves it up. *)
Lemma exec_count now c st x st' :
  escrowCount st ≤ UINT256_MAX → exec keccak256 now c st = Ok x st' →
  escrowCount st' ≤ UINT256_MAX ∧ escrowCount st ≤ escrowCount st' ∧
  (is_Some x → escrowCount st < escrowCount st').
Proof.
  intros Hmax H. destruct c as [from value r | from id payee acc
                               | from id payee acc].
  - apply exec_create_inv in H as (?&?&?&?&?&->&->). simpl.
    split_and!; [done | lia | intros _; lia].
  - apply exec_release_inv in H as (_&_&_&_&_&_&_&_&->&->). simpl.
    match goal with |- context [react keccak256 now payee ?s] =>
      destruct (react_count now payee s) as [H1 H2]; [done..|] end.
    split_and!; [done | done | by intros [? ?]].
  - apply exec_return_inv in H as (_&_&_&_&_&_&_&_&->&->). simpl.
    match goal with |- context [react keccak256 now payee ?s] =>
      destruct (react_count now payee s) as [H1 H2]; [done..|] end.
    split_and!; [done | done | by intros [? ?]].
Qed.

Lemma returned_inputs_counts txs st :
  escrowCount st ≤ UINT256_MAX →
  NoDup (returned_inputs keccak256 st txs) ∧
  ∀ x, x ∈ returned_inputs keccak256 st txs →
    ∃ from to value timestamp count,
      x = encodePacked from to value timestamp count ∧
      escrowCount st ≤ count ≤ UINT256_MAX.
Proof.
  revert st. induction txs as [|[now c] txs IH]; intros st Hmax; simpl.
  - split; [constructor | by intros x ?%elem_of_nil].
  - destruct (exec keccak256 now c st) as [x st'|] eqn:H; [|by apply IH].
    destruct (exec_count now c st x st' Hmax H) as (Hmax'&Hle&Hlt).
    destruct (IH st' Hmax') as [Hnd Hin].
    assert (Hrest : ∀ y, y ∈ returned_inputs keccak256 st' txs →
      ∃ from to value timestamp count,
        y = encodePacked from to value timestamp count ∧
        escrowCount st ≤ count ≤ UINT256_MAX).
    { intros y (f&t&v&ts&n&->&?)%Hin. exists f, t, v, ts, n.
      split; [done | lia]. }
    destruct x as [id|]; [|done].
    destruct c as [from value r | |]; [|done..].
    split.
    + constructor; [|done].
      intros (f&t&v&ts&n&Heq&?)%Hin.
      apply encodePacked_count in Heq; [|lia..].
      specialize (Hlt ltac:(by eexists)). lia.
    + intros y [->|Hy]%elem_of_cons; [|by apply Hrest].
      exists from, r, value, now, (escrowCount st). split; [done | lia].
Qed.

Lemma returned_ids_inputs txs st :
  returned_ids keccak256 st txs =
  keccak256 <$> returned_inputs keccak256 st txs.
Proof.
  revert st. induction txs as [|[now c] txs IH]; intros st; simpl; [done|].
  destruct (exec keccak256 now c st) as [[id|] st'|] eqn:H; [|done..].
  destruct c as [from value r | |].
  - apply exec_create_inv in H as (_&_&_&_&_&[= ->]&_).
    rewrite fmap_cons, IH. done.
  - by apply exec_release_inv in H as (_&_&_&_&_&_&_&_&?&_).
  - by apply exec_return_inv in H as (_&_&_&_&_&_&_&_&?&_).
Qed.


End Counter.

(** ** The life of a record *)

Section Lifecycle.

Variable keccak256 : list N → N.


End Lifecycle.

(** ** Atomicity, the guard, the window, creation and the views *)

Section Operations.

Variable keccak256 : list N → N.

Lemma releaseEscrow_send_fails send e escrowId st :
  (∀ to value s, ∃ s', send to value s = Ok false s') →
  ∃ err, releaseEscrow send e escrowId st = Revert err ∧
    (_locked st = false → isActive (escrows st !!! escrowId) = true →
     msg_sender e = recipient (escrows st !!! escrowId) →
     isReleased (escrows st !!! escrowId) = false →
     isReturned (escrows st !!! escrowId) = false →
     releaseTime (escrows st !!! escrowId) ≤ block_timestamp e →
     err = TransferFailed).
Proof.
  intros Hfail.
  destruct (releaseEscrow send e escrowId st) as [u st'|err] eqn:H.
  - apply releaseEscrow_inv in H as (_&_&_&_&_&_&st2&Hsend&_).
    destruct (Hfail (recipient (escrows st !!! escrowId))
                (amount (escrows st !!! escrowId))
                (in_flight set_isReleased escrowId st)) as [s' Hs'].
    congruence.
  - exists err. split; [done|]. intros Hl Ha Hs Hr1 Hr2 Ht.
    revert H. unfold_sol. apply N.leb_le in Ht.
    repeat (progress (simpl; rewrite ?Hl, ?Ha, ?Hs, ?N.eqb_refl, ?orb_true_r,
                        ?Hr1, ?Hr2, ?Ht, ?lookup_total_insert_eq)).
    match goal with |- context [send ?a ?b ?c] =>
      destruct (Hfail a b c) as [s' ->] end.
    simpl. congruence.
Qed.

Lemma returnEscrow_send_fails send e escrowId st :
  (∀ to value s, ∃ s', send to value s = Ok false s') →
  ∃ err, returnEscrow send e escrowId st = Revert err ∧
    (_locked st = false → isActive (escrows st !!! escrowId) = true →
     msg_sender e = sender (escrows st !!! escrowId) →
     isReleased (escrows st !!! escrowId) = false →
     isReturned (escrows st !!! escrowId) = false →
     block_timestamp e < releaseTime (escrows st !!! escrowId) →
     err = ReturnFailed).
Proof.
  intros Hfail.
  destruct (returnEscrow send e escrowId st) as [u st'|err] eqn:H.
  - apply returnEscrow_inv in H as (_&_&_&_&_&_&st2&Hsend&_).
    destruct (Hfail (sender (escrows st !!! escrowId))
                (amount (escrows st !!! escrowId))
                (in_flight set_isReturned escrowId st)) as [s' Hs'].
    congruence.
  - exists err. split; [done|]. intros Hl Ha Hs Hr1 Hr2 Ht.
    revert H. unfold_sol. apply N.ltb_lt in Ht.
    repeat (progress (simpl; rewrite ?Hl, ?Ha, ?Hs, ?N.eqb_refl, ?orb_true_r,
                        ?Hr1, ?Hr2, ?Ht, ?lookup_total_insert_eq)).
    match goal with |- context [send ?a ?b ?c] =>
      destruct (Hfail a b c) as [s' ->] end.
    simpl. congruence.
Qed.

(** C2.  Atomic rollback.  Let the transfer primitive fail, whatever the
    state it is called in and whatever it leaves behind.  Then
    [releaseEscrow] and [returnEscrow] revert, and the ledger after the
    call is the ledger before it, flags included, although the flags had
    been written when the transfer was attempted.  When every check before
    the transfer passes, the revert is the transfer's
    ("Transfer failed", "Return failed"). *)
Theorem transfer_failure_rolls_back send e escrowId st :
  (∀ to value s, ∃ s', send to value s = Ok false s') →
  let t := escrows st !!! escrowId in
  (∃ err, releaseEscrow send e escrowId st = Revert err ∧
     (_locked st = false → isActive t = true → msg_sender e = recipient t →
      isReleased t = false → isReturned t = false →
      releaseTime t ≤ block_timestamp e → err = TransferFailed)) ∧
  commit (releaseEscrow send e escrowId) st = st ∧
  (∃ err, returnEscrow send e escrowId st = Revert err ∧
     (_locked st = false → isActive t = true → msg_sender e = sender t →
      isReleased t = false → isReturned t = false →
      block_timestamp e < releaseTime t → err = ReturnFailed)) ∧
  commit (returnEscrow send e escrowId) st = st ∧
  isReleased (escrows (in_flight set_isReleased escrowId st) !!! escrowId)
    = true ∧
  isReturned (escrows (in_flight set_isReturned escrowId st) !!! escrowId)
    = true.
Proof.
  intros Hfail t.
  destruct (releaseEscrow_send_fails send e escrowId st Hfail)
    as (err1&H1&H1').
  destruct (returnEscrow_send_fails send e escrowId st Hfail)
    as (err2&H2&H2').
  split_and!.
  - by exists err1.
  - unfold commit. by rewrite H1.
  - by exists err2.
  - unfold commit. by rewrite H2.
  - by rewrite in_flight_escrows, lookup_total_insert_eq.
  - by rewrite in_flight_escrows, lookup_total_insert_eq.
Qed.

Lemma exec_create_locked (b : bool) now from value r st :
  exec keccak256 now (CreateEscrow from value r) (with_locked b st) =
  match exec keccak256 now (CreateEscrow from value r) st with
  | Ok x st' => Ok x (with_locked b st')
  | Revert err => Revert err
  end.
Proof.
  cbv [exec]. unfold_sol. simpl.
  destruct (0 <? value); [|done].
  destruct (negb (r =? 0)); [|done].
  destruct (negb (r =? from)); [|done]. simpl.
  destruct (escrowCount st + 1 <=? UINT256_MAX); [|done]. simpl.
  destruct (now + RETURN_WINDOW <=? UINT256_MAX); done.
Qed.

(** C3, as the code has it.  While the guard is taken, [releaseEscrow] and
    [returnEscrow] revert with "ReentrancyGuard: reentrant call" and
    change nothing.  [createEscrow] has no guard: it does with the guard
    taken exactly what it does with the guard free. *)
Theorem guard_rejects_release_and_return send e escrowId st :
  _locked st = true →
  releaseEscrow send e escrowId st = Revert ReentrantCall ∧
  commit (releaseEscrow send e escrowId) st = st ∧
  returnEscrow send e escrowId st = Revert ReentrantCall ∧
  commit (returnEscrow send e escrowId) st = st ∧
  (∀ now from value r,
     exec keccak256 now (CreateEscrow from value r) st =
     match exec keccak256 now (CreateEscrow from value r)
             (with_locked false st) with
     | Ok x st' => Ok x (with_locked true st')
     | Revert err => Revert err
     end).
Proof.
  intros Hl.
  pose proof (releaseEscrow_locked send e escrowId st Hl) as H1.
  pose proof (returnEscrow_locked send e escrowId st Hl) as H2.
  split_and!; try done.
  - unfold commit. by rewrite H1.
  - unfold commit. by rewrite H2.
  - intros now from value r. rewrite <- exec_create_locked.
    f_equal. destruct st. simpl in *. by subst.
Qed.

(** C4.  Window disjointness.  A release that goes through has
    [releaseTime <= now]; a return that goes through has
    [now < releaseTime].  At [now = releaseTime], for an active escrow and
    a free guard: the sender's return reverts with "Return window
    expired", and the recipient's release goes through when the
    transfer does. *)
Theorem window_disjoint now from escrowId payee accepts st :
  let t := escrows st !!! escrowId in
  (succeeds keccak256 now (ReleaseEscrow from escrowId payee accepts) st = true →
   releaseTime t ≤ now) ∧
  (succeeds keccak256 now (ReturnEscrow from escrowId payee accepts) st = true →
   now < releaseTime t) ∧
  (now = releaseTime t → _locked st = false → isActive t = true →
   isReleased t = false → isReturned t = false →
   (from = sender t →
    exec keccak256 now (ReturnEscrow from escrowId payee accepts) st =
      Revert ReturnWindowExpired) ∧
   (from = recipient t → amount t ≤ balance st →
    succeeds keccak256 now (ReleaseEscrow from escrowId payee true) st = true)).
Proof.
  intros t. split_and!.
  - intros (x&st'&H)%succeeds_true.
    by apply exec_release_inv in H as (_&_&_&_&_&?&_).
  - intros (x&st'&H)%succeeds_true.
    by apply exec_return_inv in H as (_&_&_&_&_&?&_).
  - intros Hnow Hl Ha Hr1 Hr2. split.
    + intros Hs. rewrite exec_return_unfold. unfold_sol.
      assert (Hlt : (now <? releaseTime (escrows st !!! escrowId)) = false).
      { apply N.ltb_ge. fold t. lia. }
      fold t in Ha, Hr1, Hr2.
      repeat (progress (simpl; fold t;
                rewrite ?Hl, ?Ha, ?Hs, ?N.eqb_refl, ?Hr1, ?Hr2)).
      fold t in Hlt. by rewrite Hlt.
    + intros Hs Hbal. apply succeeds_true. do 2 eexists.
      apply exec_release_Ok; try done. fold t. lia.
Qed.

(** C7, as the code has it.  [createEscrow] reverts and changes nothing
    when the amount is 0, the recipient is the zero address, or the
    recipient is the caller.  Otherwise, when [escrowCount + 1] and
    [now + 300] fit in 256 bits, it returns the new id, stores under it
    the record with [createdAt = now], [releaseTime = now + 300],
    [isReleased = isReturned = false] and [isActive = true], appends the
    id to the sender's and to the recipient's index, and takes the value;
    when one of the two sums does not fit it reverts with an arithmetic
    panic. *)
Theorem createEscrow_spec now from value r st :
  let c := CreateEscrow from value r in
  let id := new_id keccak256 now from value r st in
  (value = 0 → exec keccak256 now c st = Revert AmountMustBePositive) ∧
  (0 < value → r = 0 → exec keccak256 now c st = Revert InvalidRecipient) ∧
  (0 < value → r ≠ 0 → r = from →
   exec keccak256 now c st = Revert CannotSendToYourself) ∧
  (value = 0 ∨ r = 0 ∨ r = from →
   ∃ err, exec keccak256 now c st = Revert err ∧
          transact keccak256 now c st = st) ∧
  (0 < value → r ≠ 0 → r ≠ from →
   escrowCount st + 1 ≤ UINT256_MAX → now + RETURN_WINDOW ≤ UINT256_MAX →
   ∃ st', exec keccak256 now c st = Ok (Some id) st' ∧
     escrows st' !! id =
       Some {| sender := from; recipient := r; amount := value;
               createdAt := now; releaseTime := now + 300;
               isReleased := false; isReturned := false; isActive := true |} ∧
     (∀ id', id' ≠ id → escrows st' !! id' = escrows st !! id') ∧
     userEscrows st' !!! from = userEscrows st !!! from ++ [id] ∧
     userEscrows st' !!! r = userEscrows st !!! r ++ [id] ∧
     (∀ u, u ≠ from → u ≠ r → userEscrows st' !!! u = userEscrows st !!! u) ∧
     balance st' = balance st + value ∧
     escrowCount st' = escrowCount st + 1) ∧
  (0 < value → r ≠ 0 → r ≠ from →
   UINT256_MAX < escrowCount st + 1 ∨ UINT256_MAX < now + RETURN_WINDOW →
   exec keccak256 now c st = Revert Panic_overflow ∧
   transact keccak256 now c st = st).
Proof.
  intros c id. subst c.
  assert (Hrej : ∀ err, exec keccak256 now (CreateEscrow from value r) st
            = Revert err →
            transact keccak256 now (CreateEscrow from value r) st = st).
  { intros err H. unfold transact, commit. by rewrite H. }
  assert (H0 : value = 0 →
    exec keccak256 now (CreateEscrow from value r) st
      = Revert AmountMustBePositive).
  { intros ->. cbv [exec]. unfold_sol. done. }
  assert (H1 : 0 < value → r = 0 →
    exec keccak256 now (CreateEscrow from value r) st = Revert InvalidRecipient).
  { intros Hv ->. cbv [exec]. unfold_sol. simpl.
    by apply N.ltb_lt in Hv as ->. }
  assert (H2 : 0 < value → r ≠ 0 → r = from →
    exec keccak256 now (CreateEscrow from value r) st
      = Revert CannotSendToYourself).
  { intros Hv Hr ->. cbv [exec]. unfold_sol. simpl.
    apply N.ltb_lt in Hv as ->. apply N.eqb_neq in Hr as ->.
    by rewrite N.eqb_refl. }
  split_and!; try done.
  - intros Hcase.
    assert (∃ err, exec keccak256 now (CreateEscrow from value r) st
                     = Revert err) as [err Herr].
    { destruct (N.eq_dec value 0) as [Hv|Hv]; [eexists; by apply H0|].
      destruct (N.eq_dec r 0) as [Hr|Hr];
        [eexists; apply H1; [lia|done]|].
      destruct Hcase as [?|[?|Hs]]; [done|done|].
      eexists. apply H2; [lia|done|done]. }
    exists err. split; [done | by eapply Hrej].
  - intros Hv Hr Hs Hc Ht. eexists. split; [by apply exec_create_Ok|].
    simpl. split_and!; try done.
    + by rewrite lookup_insert_eq.
    + intros id' Hne. by rewrite lookup_insert_ne.
    + rewrite lookup_total_insert_ne by done.
      by rewrite lookup_total_insert_eq.
    + rewrite lookup_total_insert_eq.
      by rewrite lookup_total_insert_ne.
    + intros u Hu1 Hu2. by rewrite !lookup_total_insert_ne.
  - intros Hv Hr Hs Hover.
    assert (exec keccak256 now (CreateEscrow from value r) st
              = Revert Panic_overflow) as H; [|by split; [|eapply Hrej]].
    cbv [exec]. unfold_sol. simpl.
    apply N.ltb_lt in Hv as ->. apply N.eqb_neq in Hr as ->.
    apply N.eqb_neq in Hs as ->. simpl.
    destruct (escrowCount st + 1 <=? UINT256_MAX) eqn:Hc; [|done].
    destruct (now + RETURN_WINDOW <=? UINT256_MAX) eqn:Ht; [|done].
    bool_facts. lia.
Qed.


(** C10.  The views are total.  In every state of the deployed contract
    between transactions and for every id, [getEscrow], [getUserEscrows],
    [getEscrowStatus], [canReturn] and [canRelease] return without
    reverting and leave the state as it is; [timeRemaining] is
    [releaseTime - now] when [now < releaseTime] and 0 otherwise.  For an
    id that was never created they return the all-zero record,
    [(false, false, false, 0)], [false] and [false]. *)
Theorem views_total st e escrowId user :
  reachable keccak256 st →
  let t := escrows st !!! escrowId in
  getEscrow escrowId st = Ok t st ∧
  getUserEscrows user st = Ok (userEscrows st !!! user) st ∧
  getEscrowStatus e escrowId st =
    Ok (isActive t, isReleased t, isReturned t,
        if block_timestamp e <? releaseTime t
        then releaseTime t - block_timestamp e else 0) st ∧
  canReturn e escrowId st =
    Ok (isActive t && negb (isReleased t) && negb (isReturned t)
        && (block_timestamp e <? releaseTime t)) st ∧
  canRelease e escrowId st =
    Ok (isActive t && negb (isReleased t) && negb (isReturned t)
        && (releaseTime t <=? block_timestamp e)) st ∧
  (escrowId ∉ created_ids st →
   getEscrow escrowId st = Ok zero_escrow st ∧
   getEscrowStatus e escrowId st = Ok (false, false, false, 0) st ∧
   canReturn e escrowId st = Ok false st ∧
   canRelease e escrowId st = Ok false st).
Proof.
  intros Hreach t.
  assert (Hstatus : getEscrowStatus e escrowId st =
    Ok (isActive t, isReleased t, isReturned t,
        if block_timestamp e <? releaseTime t
        then releaseTime t - block_timestamp e else 0) st).
  { unfold_sol. fold t.
    destruct (block_timestamp e <? releaseTime t) eqn:Hlt; [|done].
    apply N.ltb_lt in Hlt.
    assert ((block_timestamp e <=? releaseTime t) = true) as ->
      by (apply N.leb_le; lia).
    done. }
  split_and!; try done.
  intros Hnot.
  assert (t = zero_escrow) as Hz.
  { subst t. rewrite lookup_total_alt.
    destruct (escrows st !! escrowId) as [t|] eqn:Ht; [|done].
    exfalso. apply Hnot.
    apply (ok_created _ (reachable_store_ok keccak256 st Hreach)).
    by eexists. }
  split_and!.
  - unfold getEscrow, load, gets. by fold t; rewrite Hz.
  - rewrite Hstatus, Hz. simpl. by destruct (block_timestamp e).
  - unfold_sol. fold t. by rewrite Hz.
  - unfold_sol. fold t. by rewrite Hz.
Qed.

(** The checks "Already released" and "Already returned" never fire: when
    the store invariant holds, a record that passes the existence check
    is neither released nor returned.  ([send] answers with a flag, as a
    low-level call does.) *)
Lemma already_settled_errors_unreachable send e escrowId st :
  (∀ to value s, ∃ b s', send to value s = Ok b s') →
  store_ok st →
  releaseEscrow send e escrowId st ≠ Revert AlreadyReleased ∧
  releaseEscrow send e escrowId st ≠ Revert AlreadyReturned ∧
  returnEscrow send e escrowId st ≠ Revert AlreadyReleased ∧
  returnEscrow send e escrowId st ≠ Revert AlreadyReturned.
Proof.
  intros Hsend Hstore.
  assert (Hflags : isActive (escrows st !!! escrowId) = true →
            isReleased (escrows st !!! escrowId) = false ∧
            isReturned (escrows st !!! escrowId) = false).
  { intros Ha. pose proof (lookup_total_active _ _ Ha) as Hsome.
    destruct (ok_record _ Hstore _ _ Hsome) as (_&_&_&_&_&Hact).
    rewrite Ha in Hact. symmetry in Hact.
    by apply negb_true_iff, orb_false_iff in Hact. }
  split_and!; unfold_sol; intros H;
    repeat case_match; simplify_eq; bool_facts; simpl in *;
    match goal with
    | Hs : send ?a ?b ?c = Revert _ |- _ =>
        destruct (Hsend a b c) as (?&?&?); congruence
    | Ha : isActive _ = true |- _ => destruct (Hflags Ha); congruence
    end.
Qed.

End Operations.

(** ** Concrete runs *)

Lemma sample_keccak256_inj : collision_free sample_keccak256.
Proof.
  unfold collision_free, sample_keccak256. intros * [= H].
  by apply (inj encode) in H.
Qed.

Lemma sample_open_reachable : reachable sample_keccak256 sample_open.
Proof. apply reachable_transact, reachable_init. Qed.

Lemma sample_returned_reachable : reachable sample_keccak256 sample_returned.
Proof. apply reachable_transact, sample_open_reachable. Qed.

Lemma sample_released_reachable : reachable sample_keccak256 sample_released.
Proof. apply reachable_transact, sample_open_reachable. Qed.




(** The recipient reverts on receipt at time 300: the release reverts with
    "Transfer failed" and the ledger is the one before the call. *)
Lemma transfer_failure_rolls_back_witness :
  releaseEscrow rejecting_payee (as_bob 300) sample_id sample_open
    = Revert TransferFailed ∧
  commit (releaseEscrow rejecting_payee (as_bob 300) sample_id) sample_open
    = sample_open ∧
  isActive (escrows sample_open !!! sample_id) = true.
Proof.
  assert (Hfail : ∀ to value s, ∃ s', rejecting_payee to value s = Ok false s').
  { intros to value s. exists s. apply call_value_fails. by left. }
  destruct (transfer_failure_rolls_back rejecting_payee (as_bob 300)
              sample_id sample_open Hfail) as ((err&H&Herr)&Hc&_).
  rewrite Herr in H by (vm_compute; done).
  split; [exact H|]. split; [exact Hc|]. vm_compute. reflexivity.
Defined.

(** While the recipient is being paid, a second release and a return are
    turned down by the guard. *)
Lemma guard_rejects_release_and_return_witness :
  _locked sample_in_flight = true ∧
  releaseEscrow accepting_payee (as_bob 300) sample_id sample_in_flight
    = Revert ReentrantCall ∧
  returnEscrow accepting_payee (as_alice 300) sample_id sample_in_flight
    = Revert ReentrantCall.
Proof.
  assert (Hl : _locked sample_in_flight = true) by reflexivity.
  split; [exact Hl|]. split.
  - apply (guard_rejects_release_and_return sample_keccak256 accepting_payee
             (as_bob 300) sample_id sample_in_flight Hl).
  - apply (guard_rejects_release_and_return sample_keccak256 accepting_payee
             (as_alice 300) sample_id sample_in_flight Hl).
Defined.

(** While the recipient is being paid (the guard is taken), a
    [createEscrow] call goes through; a release whose payee makes that call
    ends with two escrows created. *)
Lemma createEscrow_runs_while_guard_taken :
  _locked sample_in_flight = true ∧
  succeeds sample_keccak256 300 (CreateEscrow bob 5 alice) sample_in_flight
    = true ∧
  length (created_ids
    (transact sample_keccak256 300
       (ReleaseEscrow bob sample_id [CreateEscrow bob 5 alice] true)
       sample_open)) = 2%nat.
Proof. vm_compute. done. Qed.

(** At time 300 = [releaseTime]: the sender's return reverts with "Return
    window expired" and the recipient's release goes through; at time 299
    it is the other way round. *)
Lemma window_disjoint_witness :
  releaseTime (escrows sample_open !!! sample_id) = 300 ∧
  exec sample_keccak256 300 (ReturnEscrow alice sample_id [] true) sample_open
    = Revert ReturnWindowExpired ∧
  succeeds sample_keccak256 300 (ReleaseEscrow bob sample_id [] true)
    sample_open = true ∧
  succeeds sample_keccak256 299 (ReleaseEscrow bob sample_id [] true)
    sample_open = false ∧
  succeeds sample_keccak256 299 (ReturnEscrow alice sample_id [] true)
    sample_open = true.
Proof.
  split; [vm_compute; reflexivity|]. split; [|split].
  - apply (window_disjoint sample_keccak256 300 alice sample_id [] true
             sample_open); vm_compute; done.
  - apply (window_disjoint sample_keccak256 300 bob sample_id [] true
             sample_open); vm_compute; done.
  - vm_compute. done.
Defined.

(** The first escrow of the sample ledger. *)
Lemma createEscrow_spec_witness :
  ∃ st', exec sample_keccak256 0 (CreateEscrow alice 10 bob) init_state
           = Ok (Some sample_id) st' ∧
    escrows st' !! sample_id =
      Some {| sender := alice; recipient := bob; amount := 10;
              createdAt := 0; releaseTime := 0 + 300;
              isReleased := false; isReturned := false; isActive := true |} ∧
    userEscrows st' !!! alice = [sample_id] ∧
    userEscrows st' !!! bob = [sample_id] ∧
    balance st' = 10.
Proof.
  destruct (createEscrow_spec sample_keccak256 0 alice 10 bob init_state)
    as (_&_&_&_&H&_).
  destruct H as (st'&Hexec&Hrec&_&Ha&Hb&_&Hbal&_); try (vm_compute; done).
  exists st'. split; [exact Hexec|]. split; [exact Hrec|].
  split; [exact Ha|]. split; [exact Hb | exact Hbal].
Defined.

(** With a positive amount and a recipient that is neither zero nor the
    caller, [createEscrow] at the last timestamp of the 256-bit range
    stores nothing: [now + 300] overflows and the call reverts. *)
Lemma createEscrow_overflow_reverts :
  exec sample_keccak256 UINT256_MAX (CreateEscrow alice 10 bob) init_state
    = Revert Panic_overflow ∧
  transact sample_keccak256 UINT256_MAX (CreateEscrow alice 10 bob) init_state
    = init_state.
Proof. vm_compute. done. Qed.




Lemma views_total_witness :
  getEscrowStatus (as_bob 100) sample_id sample_open
    = Ok (true, false, false, 200) sample_open ∧
  getEscrowStatus (as_bob 100) 7 sample_open
    = Ok (false, false, false, 0) sample_open ∧
  canReturn (as_alice 100) 7 sample_open = Ok false sample_open ∧
  canRelease (as_bob 400) 7 sample_open = Ok false sample_open.
Proof.
  assert (Hnot : 7 ∉ created_ids sample_open).
  { intros H'%list_elem_of_In. vm_compute in H'. by destruct H'. }
  destruct (views_total sample_keccak256 sample_open (as_bob 100) sample_id
              alice sample_open_reachable) as (_&_&Hs&_).
  destruct (views_total sample_keccak256 sample_open (as_bob 100) 7
              alice sample_open_reachable) as (_&_&_&_&_&H7).
  destruct (views_total sample_keccak256 sample_open (as_alice 100) 7
              alice sample_open_reachable) as (_&_&_&_&_&H7a).
  destruct (views_total sample_keccak256 sample_open (as_bob 400) 7
              alice sample_open_reachable) as (_&_&_&_&_&H7b).
  split; [rewrite Hs; vm_compute; reflexivity|].
  split; [by apply H7|]. split; [by apply H7a | by apply H7b].
Defined.

(** ** The scenarios of the specification, run on the model *)

Lemma message_inj e1 e2 : message e1 = message e2 → e1 = e2.
Proof. destruct e1, e2; simpl; intros H; (done || discriminate H). Qed.

(** Scenario 1: at time 299 the recipient's release reverts and the
    sender's return pays the sender back. *)
Example scenario_return_in_window :
  exec sample_keccak256 299 (ReleaseEscrow bob sample_id [] true) sample_open
    = Revert StillInReturnWindow ∧
  transfers sample_returned = [(alice, 10)] ∧
  balance sample_returned = 0 ∧
  escrows sample_returned !!! sample_id =
    {| sender := alice; recipient := bob; amount := 10; createdAt := 0;
       releaseTime := 300; isReleased := false; isReturned := true;
       isActive := false |}.
Proof. vm_compute. done. Qed.

(** Scenario 2: at time 300 the return reverts and the release pays the
    recipient. *)
Example scenario_release_after_window :
  exec sample_keccak256 300 (ReturnEscrow alice sample_id [] true) sample_open
    = Revert ReturnWindowExpired ∧
  transfers sample_released = [(bob, 10)] ∧
  events sample_released =
    [EscrowCreated sample_id alice bob 10 300; EscrowReleased sample_id bob 10].
Proof. vm_compute. done. Qed.

(** Scenario 4: an amount of 0 is turned down and nothing is stored. *)
Example scenario_zero_amount :
  exec sample_keccak256 0 (CreateEscrow alice 0 bob) init_state
    = Revert AmountMustBePositive ∧
  transact sample_keccak256 0 (CreateEscrow alice 0 bob) init_state
    = init_state.
Proof. vm_compute. done. Qed.

(** Scenario 5: two escrows from the same sender to the same recipient
    appear in both indexes in creation order. *)
Example scenario_index_order :
  let st := run sample_keccak256 init_state
              [(0, CreateEscrow alice 10 bob); (5, CreateEscrow alice 20 bob)] in
  let ids := returned_ids sample_keccak256 init_state
              [(0, CreateEscrow alice 10 bob); (5, CreateEscrow alice 20 bob)] in
  length ids = 2%nat ∧
  getUserEscrows alice st = Ok ids st ∧
  getUserEscrows bob st = Ok ids st.
Proof. vm_compute. done. Qed.

(** A recipient that calls [releaseEscrow] again while it is being paid:
    the nested call is turned down and the recipient is paid once. *)
Example scenario_reentrant_release :
  let st := transact sample_keccak256 300
              (ReleaseEscrow bob sample_id
                 [ReleaseEscrow bob sample_id [] true] true) sample_open in
  exec sample_keccak256 300 (ReleaseEscrow bob sample_id [] true)
    sample_in_flight = Revert ReentrantCall ∧
  transfers st = [(bob, 10)] ∧
  balance st = 0 ∧
  _locked st = false.
Proof. vm_compute. done. Qed.

(** * Further properties of the contract *)

(** ** A proof rule for invariants

    A transaction is either a [createEscrow], or a release or return that
    enters an in-flight phase (guard taken, record marked, value sent),
    lets the payee create escrows, and leaves the phase by emitting its
    event and dropping the guard.  An invariant [P] of the states between
    transactions therefore comes with an invariant [Q ev] of the in-flight
    phase that will end with event [ev]. *)

Section TwoPhase.

Variable keccak256 : list N → N.
Variable P : state → Prop.
Variable Q : event → state → Prop.

Hypothesis Q_locked : ∀ ev st, Q ev st → _locked st = true.
Hypothesis P_init : P init_state.
Hypothesis P_created : ∀ now from value r st,
  P st → 0 < value → r ≠ 0 → r ≠ from →
  escrowCount st + 1 ≤ UINT256_MAX → now + RETURN_WINDOW ≤ UINT256_MAX →
  P (created keccak256 now from value r st).
Hypothesis Q_created : ∀ ev now from value r st,
  Q ev st → 0 < value → r ≠ 0 → r ≠ from →
  escrowCount st + 1 ≤ UINT256_MAX → now + RETURN_WINDOW ≤ UINT256_MAX →
  Q ev (created keccak256 now from value r st).
Hypothesis P_release : ∀ escrowId st,
  P st →
  isActive (escrows st !!! escrowId) = true →
  isReleased (escrows st !!! escrowId) = false →
  isReturned (escrows st !!! escrowId) = false →
  amount (escrows st !!! escrowId) ≤ balance st →
  Q (EscrowReleased escrowId (recipient (escrows st !!! escrowId))
       (amount (escrows st !!! escrowId)))
    (paid (recipient (escrows st !!! escrowId))
       (amount (escrows st !!! escrowId))
       (in_flight set_isReleased escrowId st)).
Hypothesis P_return : ∀ escrowId st,
  P st →
  isActive (escrows st !!! escrowId) = true →
  isReleased (escrows st !!! escrowId) = false →
  isReturned (escrows st !!! escrowId) = false →
  amount (escrows st !!! escrowId) ≤ balance st →
  Q (EscrowReturned escrowId (sender (escrows st !!! escrowId))
       (amount (escrows st !!! escrowId)))
    (paid (sender (escrows st !!! escrowId))
       (amount (escrows st !!! escrowId))
       (in_flight set_isReturned escrowId st)).
Hypothesis Q_exit : ∀ ev st,
  Q ev st → P (with_locked false (with_event ev st)).

Lemma two_phase_react ev now payee st :
  Q ev st → Q ev (react keccak256 now payee st).
Proof.
  revert st. induction payee as [|c payee IH]; intros st HQ; [done|].
  change (react keccak256 now (c :: payee) st)
    with (react keccak256 now payee (commit (exec keccak256 now c) st)).
  apply IH. unfold commit.
  destruct (exec keccak256 now c st) as [x st'|] eqn:H; [|done].
  pose proof (Q_locked _ _ HQ) as Hl. destruct c.
  - apply exec_create_inv in H as (?&?&?&?&?&->&->). by apply Q_created.
  - apply exec_release_inv in H as (?&_). congruence.
  - apply exec_return_inv in H as (?&_). congruence.
Qed.

Lemma two_phase_exec now c st x st' :
  P st → exec keccak256 now c st = Ok x st' → P st'.
Proof.
  intros HP H. destruct c as [from value r | from id payee acc
                             | from id payee acc].
  - apply exec_create_inv in H as (?&?&?&?&?&->&->). by apply P_created.
  - apply exec_release_inv in H as (_&?&_&?&?&_&?&_&->&->).
    by apply Q_exit, two_phase_react, P_release.
  - apply exec_return_inv in H as (_&?&_&?&?&_&?&_&->&->).
    by apply Q_exit, two_phase_react, P_return.
Qed.

Lemma two_phase_transact now c st :
  P st → P (transact keccak256 now c st).
Proof.
  intros HP. unfold transact, commit.
  destruct (exec keccak256 now c st) eqn:H; [|done].
  by eapply two_phase_exec.
Qed.

Lemma two_phase_reachable st : reachable keccak256 st → P st.
Proof. induction 1; [done | by apply two_phase_transact]. Qed.

Lemma two_phase_run txs st : P st → P (run keccak256 st txs).
Proof.
  revert st. induction txs as [|[now c] txs IH]; intros st HP; [done|].
  simpl. by apply IH, two_phase_transact.
Qed.

End TwoPhase.

(** ** Who may settle, and what a settlement pays *)

Section Settling.

Variable keccak256 : list N → N.

(** X1.  Only the recipient releases and only the sender returns.  A
    release or return that goes through was called by the record's
    recipient, respectively sender.  On an active escrow with the guard
    free, a release by a stranger reverts with "Not authorized", a release
    by the sender with "Only recipient can release", and a return by
    anyone but the sender (the recipient and strangers alike:
    [returnEscrow] has no [onlyParties]) with "Only sender can return". *)
Theorem settle_needs_its_party now from escrowId payee accepts st :
  let t := escrows st !!! escrowId in
  (succeeds keccak256 now (ReleaseEscrow from escrowId payee accepts) st = true →
   from = recipient t) ∧
  (succeeds keccak256 now (ReturnEscrow from escrowId payee accepts) st = true →
   from = sender t) ∧
  (_locked st = false → isActive t = true →
   (from ≠ sender t → from ≠ recipient t →
    exec keccak256 now (ReleaseEscrow from escrowId payee accepts) st
      = Revert NotAuthorized) ∧
   (from = sender t → from ≠ recipient t →
    exec keccak256 now (ReleaseEscrow from escrowId payee accepts) st
      = Revert OnlyRecipientCanRelease) ∧
   (from ≠ sender t →
    exec keccak256 now (ReturnEscrow from escrowId payee accepts) st
      = Revert OnlySenderCanReturn)).
Proof.
  intros t. split_and!.
  - intros (x&st'&H)%succeeds_true.
    by apply exec_release_inv in H as (_&_&?&_).
  - intros (x&st'&H)%succeeds_true.
    by apply exec_return_inv in H as (_&_&?&_).
  - intros Hl Ha. fold t in Ha. split_and!.
    + intros Hs Hr. rewrite exec_release_unfold. unfold_sol.
      apply N.eqb_neq in Hs, Hr.
      repeat (progress (simpl; fold t; rewrite ?Hl, ?Ha, ?Hs, ?Hr)). done.
    + intros Hs Hr. rewrite exec_release_unfold. unfold_sol.
      apply N.eqb_neq in Hr.
      repeat (progress (simpl; fold t;
                rewrite ?Hl, ?Ha, <- ?Hs, ?N.eqb_refl, ?Hr)). done.
    + intros Hs. rewrite exec_return_unfold. unfold_sol.
      apply N.eqb_neq in Hs.
      repeat (progress (simpl; fold t; rewrite ?Hl, ?Ha, ?Hs)). done.
Qed.

(** While the guard is taken the payee can neither move value out nor
    settle anything; it can only add value. *)
Lemma react_frame now payee st :
  _locked st = true →
  _locked (react keccak256 now payee st) = true ∧
  transfers (react keccak256 now payee st) = transfers st ∧
  settled (react keccak256 now payee st) = settled st ∧
  balance st ≤ balance (react keccak256 now payee st).
Proof.
  revert st. induction payee as [|c payee IH]; intros st Hl; [done|].
  change (react keccak256 now (c :: payee) st)
    with (react keccak256 now payee (commit (exec keccak256 now c) st)).
  assert (Hstep : _locked (commit (exec keccak256 now c) st) = true ∧
    transfers (commit (exec keccak256 now c) st) = transfers st ∧
    settled (commit (exec keccak256 now c) st) = settled st ∧
    balance st ≤ balance (commit (exec keccak256 now c) st)).
  { unfold commit.
    destruct (exec keccak256 now c st) as [x st'|] eqn:H; [|done].
    destruct c.
    - apply exec_create_inv in H as (?&?&?&?&?&->&->).
      split_and!; [done | done | apply settled_created | simpl; lia].
    - apply exec_release_inv in H as (?&_). congruence.
    - apply exec_return_inv in H as (?&_). congruence. }
  destruct Hstep as (Hl1&Ht1&Hs1&Hb1).
  destruct (IH _ Hl1) as (Hl2&Ht2&Hs2&Hb2).
  split_and!; [done | congruence | congruence | lia].
Qed.

(** X2.  One payment per settlement.  Whatever the payee does while it
    is paid, a transaction pays out nothing unless it is a release or a
    return that goes through, and then it pays exactly once: the record's
    amount, to the record's recipient (release) or sender (return); the
    log gains exactly that settlement. *)
Theorem one_payment_per_settlement now c st :
  transfers (transact keccak256 now c st) =
    transfers st ++ (if succeeds keccak256 now c st then payout c st else []) ∧
  settled (transact keccak256 now c st) =
    settled st ++ (if succeeds keccak256 now c st then settles_id c else []).
Proof.
  unfold transact, commit, succeeds.
  destruct (exec keccak256 now c st) as [x st'|] eqn:H;
    [|by rewrite !app_nil_r].
  destruct c as [from value r | from id payee acc | from id payee acc].
  - apply exec_create_inv in H as (?&?&?&?&?&->&->).
    rewrite settled_created. simpl. by rewrite !app_nil_r.
  - apply exec_release_inv in H as (_&_&_&_&_&_&_&_&->&->).
    match goal with |- context [react keccak256 now payee ?s] =>
      destruct (react_frame now payee s eq_refl) as (_&Ht&Hs&_) end.
    unfold settled in *. simpl. rewrite Ht, omap_app, Hs. done.
  - apply exec_return_inv in H as (_&_&_&_&_&_&_&_&->&->).
    match goal with |- context [react keccak256 now payee ?s] =>
      destruct (react_frame now payee s eq_refl) as (_&Ht&Hs&_) end.
    unfold settled in *. simpl. rewrite Ht, omap_app, Hs. done.
Qed.

End Settling.

(** The rule for an invariant that does not look at the guard: it is kept
    by a creation, by the marking and payment that open a settlement, and
    by the event that closes it. *)

Section SimpleInvariant.

Variable keccak256 : list N → N.
Variable I : state → Prop.

Hypothesis I_init : I init_state.
Hypothesis I_created : ∀ now from value r st,
  I st → 0 < value → r ≠ 0 → r ≠ from →
  escrowCount st + 1 ≤ UINT256_MAX → now + RETURN_WINDOW ≤ UINT256_MAX →
  I (created keccak256 now from value r st).
Hypothesis I_enter : ∀ mark to escrowId st,
  mark = set_isReleased ∨ mark = set_isReturned →
  I st →
  isActive (escrows st !!! escrowId) = true →
  isReleased (escrows st !!! escrowId) = false →
  isReturned (escrows st !!! escrowId) = false →
  amount (escrows st !!! escrowId) ≤ balance st →
  I (paid to (amount (escrows st !!! escrowId)) (in_flight mark escrowId st)).
Hypothesis I_exit : ∀ ev st,
  created_id ev = None → I st → I (with_locked false (with_event ev st)).

Lemma invariant_reachable st :
  reachable keccak256 st → I st ∧ _locked st = false.
Proof.
  intros Hreach.
  enough (I st ∧ _locked st = false) by done.
  apply (two_phase_reachable keccak256
           (λ s, I s ∧ _locked s = false)
           (λ ev s, I s ∧ _locked s = true ∧ created_id ev = None)).
  - by intros ev s (?&?&?).
  - done.
  - intros now from value r s [HI Hl] ? ? ? ? ?. split; [|done].
    by apply I_created.
  - intros ev now from value r s (HI&Hl&Hev) ? ? ? ? ?.
    split_and!; [|done..]. by apply I_created.
  - intros id s [HI Hl] ? ? ? ?. split_and!; [|done..].
    apply I_enter; auto.
  - intros id s [HI Hl] ? ? ? ?. split_and!; [|done..].
    apply I_enter; auto.
  - intros ev s (HI&Hl&Hev). split; [|done]. by apply I_exit.
  - done.
Qed.

End SimpleInvariant.

(** ** Value in, value out *)

Lemma deposited_snoc evs ev :
  foldr (λ ev acc, deposit ev + acc) 0 (evs ++ [ev]) =
  foldr (λ ev acc, deposit ev + acc) 0 evs + deposit ev.
Proof. induction evs as [|e evs IH]; simpl; [lia | rewrite IH; lia]. Qed.

Lemma paid_snoc (l : list (address * uint256)) p :
  foldr (λ p acc, p.2 + acc) 0 (l ++ [p]) =
  foldr (λ p acc, p.2 + acc) 0 l + p.2.
Proof. induction l as [|q l IH]; simpl; [lia | rewrite IH; lia]. Qed.

Section Conservation.

Variable keccak256 : list N → N.


(** X4.  The sequence counter counts the escrows.  In every state of the
    deployed contract between transactions, [escrowCount] is the number of
    [EscrowCreated] events emitted so far, and it is in the 256-bit
    range. *)
Theorem escrowCount_counts_creations st :
  reachable keccak256 st →
  escrowCount st = N.of_nat (length (created_ids st)) ∧
  escrowCount st ≤ UINT256_MAX.
Proof.
  intros Hreach.
  apply (invariant_reachable keccak256
           (λ s, escrowCount s = N.of_nat (length (created_ids s)) ∧
                 escrowCount s ≤ UINT256_MAX)) in Hreach; [by destruct Hreach|..].
  - done.
  - intros now from value r s [H ?] _ _ _ ? _. unfold created_ids in *.
    simpl. rewrite omap_app, length_app. simpl. split; [lia | done].
  - intros mark to id s _ H _ _ _ _. done.
  - intros ev s Hev [H ?]. unfold created_ids in *. simpl.
    rewrite omap_app, length_app. simpl. rewrite Hev. simpl.
    split; [lia | done].
Qed.

End Conservation.

(** ** The participant index *)

Section Index.

Variable keccak256 : list N → N.

Lemma created_index now from value r st u :
  r ≠ from →
  userEscrows (created keccak256 now from value r st) !!! u =
  userEscrows st !!! u ++
    (if bool_decide (u = from ∨ u = r)
     then [new_id keccak256 now from value r st] else []).
Proof.
  intros Hne. simpl.
  destruct (decide (u = r)) as [->|Hr].
  - rewrite lookup_total_insert_eq, lookup_total_insert_ne by done.
    by rewrite bool_decide_true by (by right).
  - rewrite lookup_total_insert_ne by done.
    destruct (decide (u = from)) as [->|Hf].
    + rewrite lookup_total_insert_eq.
      by rewrite bool_decide_true by (by left).
    + rewrite lookup_total_insert_ne by done.
      rewrite bool_decide_false by (by intros [?|?]).
      by rewrite app_nil_r.
Qed.

(** X5.  The index lists every escrow under both parties.  In every state
    of the deployed contract between transactions, the id of every stored
    record is in [getUserEscrows] of its sender and of its recipient, and
    every id [getUserEscrows] returns is one that [createEscrow] has
    created. *)
Theorem participant_index_complete st :
  reachable keccak256 st →
  index_complete st ∧
  (∀ u id, id ∈ userEscrows st !!! u → id ∈ created_ids st).
Proof.
  intros Hreach.
  apply (invariant_reachable keccak256
    (λ s, index_complete s ∧
          (∀ u id, id ∈ userEscrows s !!! u → id ∈ created_ids s)))
    in Hreach; [by destruct Hreach|..].
  - split.
    + intros id t. simpl. by rewrite lookup_empty.
    + intros u id. simpl. rewrite lookup_total_empty. by intros ?%elem_of_nil.
  - intros now from value r s [Hc Hs] _ _ Hne _ _. split.
    + intros id t. rewrite !created_index by done.
      rewrite !elem_of_app. simpl. rewrite lookup_insert_Some.
      intros [[<- <-] | [_ H]].
      * simpl. rewrite !bool_decide_true by auto.
        split; right; apply list_elem_of_here.
      * destruct (Hc id t H). by split; left.
    + intros u id. rewrite created_index by done. unfold created_ids. simpl.
      rewrite omap_app, !elem_of_app. simpl. intros [H | H].
      * left. by eapply Hs.
      * right. by case_bool_decide; [|apply elem_of_nil in H].
  - intros mark to id s Hm [Hc Hs] Ha _ _ _. split; [|done].
    intros i t.
    change (userEscrows (paid to (amount (escrows s !!! id))
                           (in_flight mark id s))) with (userEscrows s).
    change (escrows (paid to (amount (escrows s !!! id))
                       (in_flight mark id s)))
      with (escrows (in_flight mark id s)).
    rewrite in_flight_escrows, lookup_insert_Some.
    intros [[<- <-] | [_ H]]; [|by apply Hc].
    apply lookup_total_active in Ha. apply Hc in Ha.
    by destruct Hm as [-> | ->].
  - intros ev s Hev [Hc Hs]. split; [done|].
    intros u id H. apply Hs in H. unfold created_ids in *. simpl.
    rewrite omap_app, elem_of_app. by left.
Qed.

Lemma commit_index_prefix_locked now c st u :
  _locked st = true →
  _locked (commit (exec keccak256 now c) st) = true ∧
  userEscrows st !!! u `prefix_of`
    userEscrows (commit (exec keccak256 now c) st) !!! u.
Proof.
  intros Hl. unfold commit.
  destruct (exec keccak256 now c st) as [x st'|] eqn:H; [|done].
  destruct c.
  - apply exec_create_inv in H as (?&?&?&?&?&->&->).
    split; [done|]. rewrite created_index by done. by apply prefix_app_r.
  - apply exec_release_inv in H as (?&_). congruence.
  - apply exec_return_inv in H as (?&_). congruence.
Qed.

Lemma react_index_prefix now payee st u :
  _locked st = true →
  userEscrows st !!! u `prefix_of`
    userEscrows (react keccak256 now payee st) !!! u.
Proof.
  revert st. induction payee as [|c payee IH]; intros st Hl; [done|].
  change (react keccak256 now (c :: payee) st)
    with (react keccak256 now payee (commit (exec keccak256 now c) st)).
  destruct (commit_index_prefix_locked now c st u Hl) as [Hl1 Hp1].
  etrans; [exact Hp1 | by apply IH].
Qed.

Lemma transact_index_prefix now c st u :
  userEscrows st !!! u `prefix_of`
    userEscrows (transact keccak256 now c st) !!! u.
Proof.
  unfold transact, commit.
  destruct (exec keccak256 now c st) as [x st'|] eqn:H; [|done].
  destruct c as [from value r | from id payee acc | from id payee acc].
  - apply exec_create_inv in H as (?&?&?&?&?&->&->).
    rewrite created_index by done. by apply prefix_app_r.
  - apply exec_release_inv in H as (_&_&_&_&_&_&_&_&->&->).
    match goal with |- context [react keccak256 now payee ?s] =>
      exact (react_index_prefix now payee s u eq_refl) end.
  - apply exec_return_inv in H as (_&_&_&_&_&_&_&_&->&->).
    match goal with |- context [react keccak256 now payee ?s] =>
      exact (react_index_prefix now payee s u eq_refl) end.
Qed.

(** X6.  The index is append-only.  Whatever state the contract is in and
    whatever transactions follow, what [getUserEscrows] returned for a
    user is a prefix of what it returns afterwards: entries are never
    removed or reordered. *)
Theorem participant_index_append_only txs st u :
  ∃ old new more,
    getUserEscrows u st = Ok old st ∧
    getUserEscrows u (run keccak256 st txs) = Ok new (run keccak256 st txs) ∧
    new = old ++ more.
Proof.
  assert (Hp : userEscrows st !!! u `prefix_of`
                 userEscrows (run keccak256 st txs) !!! u).
  { revert st. induction txs as [|[now c] txs IH]; intros st; [done|].
    simpl. etrans; [apply (transact_index_prefix now c)|apply IH]. }
  destruct Hp as [more Hmore].
  exists (userEscrows st !!! u), (userEscrows (run keccak256 st txs) !!! u),
    more. done.
Qed.

End Index.

(** ** Invariants that rest on fresh ids *)

Section FreshInvariant.

Variable keccak256 : list N → N.
Hypothesis keccak256_free : collision_free keccak256.

Lemma minted_fresh now from value r st :
  minted_ok keccak256 st →
  escrows st !! new_id keccak256 now from value r st = None.
Proof.
  intros [Hmax Hm]. destruct (escrows st !! _) as [t|] eqn:H; [|done].
  apply Hm in H as (f&to&v&ts&c&Hc&Heq).
  apply keccak256_free, encodePacked_count in Heq; lia.
Qed.

Lemma minted_ok_created now from value r st :
  minted_ok keccak256 st → escrowCount st + 1 ≤ UINT256_MAX →
  minted_ok keccak256 (created keccak256 now from value r st).
Proof.
  intros [Hmax Hm] Hc. split; [done|].
  intros id t. simpl. rewrite lookup_insert_Some.
  intros [[<- _] | [_ H]].
  - exists from, r, value, now, (escrowCount st). split; [simpl; lia|done].
  - apply Hm in H as (f&to&v&ts&c&?&?).
    exists f, to, v, ts, c. split; [simpl; lia|done].
Qed.

Lemma minted_ok_enter mark to value escrowId st :
  minted_ok keccak256 st → isActive (escrows st !!! escrowId) = true →
  minted_ok keccak256 (paid to value (in_flight mark escrowId st)).
Proof.
  intros [Hmax Hm] Ha. apply lookup_total_active in Ha. split; [done|].
  intros id t.
  change (escrows (paid to value (in_flight mark escrowId st)))
    with (escrows (in_flight mark escrowId st)).
  rewrite in_flight_escrows, lookup_insert_Some.
  intros [[<- _] | [_ H]]; [by apply Hm in Ha | by apply Hm in H].
Qed.

Variable K : state → Prop.

Hypothesis K_init : K init_state.
Hypothesis K_created : ∀ now from value r st,
  K st → escrows st !! new_id keccak256 now from value r st = None →
  0 < value → r ≠ 0 → r ≠ from →
  K (created keccak256 now from value r st).
Hypothesis K_enter : ∀ mark to escrowId st t,
  mark = set_isReleased ∨ mark = set_isReturned →
  K st → escrows st !! escrowId = Some t →
  isActive t = true → isReleased t = false → isReturned t = false →
  amount t ≤ balance st →
  K (paid to (amount t) (in_flight mark escrowId st)).
Hypothesis K_exit : ∀ ev st,
  created_id ev = None → K st → K (with_locked false (with_event ev st)).

Lemma fresh_invariant_reachable st :
  reachable keccak256 st → K st ∧ minted_ok keccak256 st ∧ _locked st = false.
Proof.
  intros Hreach.
  apply (invariant_reachable keccak256
           (λ s, K s ∧ minted_ok keccak256 s)) in Hreach;
    [by destruct Hreach as [[? ?] ?]|..].
  - split; [done|]. split; [done|]. intros id t. simpl.
    by rewrite lookup_empty.
  - intros now from value r s [HK Hm] ? ? ? ? ?. split.
    + apply K_created; try done. by apply minted_fresh.
    + by apply minted_ok_created.
  - intros mark to id s Hmark [HK Hm] Ha Hr1 Hr2 Hle. split.
    + pose proof (lookup_total_active _ _ Ha) as Hsome.
      by apply (K_enter mark to id s _ Hmark HK Hsome).
    + by apply minted_ok_enter.
  - intros ev s Hev [HK [Hmax Hm]]. split; [by apply K_exit|].
    split; [done|]. intros id t H. by apply Hm in H.
Qed.

End FreshInvariant.

(** ** Custody *)

Lemma held_insert_fresh (m : gmap N EscrowTransaction) i t :
  m !! i = None → held (<[i := t]> m) = owed t + held m.
Proof.
  intros H. unfold held. rewrite map_fold_insert_L; [done| |done].
  intros. lia.
Qed.

Lemma held_lookup (m : gmap N EscrowTransaction) i t :
  m !! i = Some t → held m = owed t + held (delete i m).
Proof.
  intros H. unfold held.
  rewrite (map_fold_delete_L _ _ i t m); [done| |done].
  intros. lia.
Qed.

Lemma held_insert_Some (m : gmap N EscrowTransaction) i t0 t :
  m !! i = Some t0 → held (<[i := t]> m) + owed t0 = owed t + held m.
Proof.
  intros H. rewrite (held_lookup m i t0 H), <- insert_delete_eq.
  rewrite held_insert_fresh by apply lookup_delete_eq. lia.
Qed.

Section Custody.

Variable keccak256 : list N → N.

Lemma reachable_custody st :
  collision_free keccak256 → reachable keccak256 st →
  balance st = held (escrows st) ∧ minted_ok keccak256 st ∧
  _locked st = false.
Proof.
  intros Hfree Hreach.
  apply (fresh_invariant_reachable keccak256 Hfree
           (λ s, balance s = held (escrows s))) in Hreach; [done|..].
  - done.
  - intros now from value r s H Hfresh _ _ _. simpl.
    rewrite held_insert_fresh by done. unfold owed. simpl. lia.
  - intros mark to id s t Hmark H Hsome Ha _ _ Hle.
    change (escrows (paid to (amount t) (in_flight mark id s)))
      with (escrows (in_flight mark id s)).
    rewrite in_flight_escrows. simpl.
    pose proof (held_insert_Some (escrows s) id t
      (set_isActive false (mark true (escrows s !!! id))) Hsome) as Heq.
    unfold owed in Heq at 1 2. simpl in Heq. rewrite Ha in Heq. lia.
  - intros ev s _ H. done.
Qed.

Lemma active_is_covered st escrowId :
  collision_free keccak256 → reachable keccak256 st →
  isActive (escrows st !!! escrowId) = true →
  amount (escrows st !!! escrowId) ≤ balance st.
Proof.
  intros Hfree Hreach Ha.
  destruct (reachable_custody st Hfree Hreach) as (->&_).
  apply lookup_total_active in Ha as Hsome.
  rewrite (held_lookup _ _ _ Hsome). unfold owed. rewrite Ha. lia.
Qed.


Lemma canRelease_true e escrowId st :
  canRelease e escrowId st = Ok true st ↔
  isActive (escrows st !!! escrowId) = true ∧
  isReleased (escrows st !!! escrowId) = false ∧
  isReturned (escrows st !!! escrowId) = false ∧
  releaseTime (escrows st !!! escrowId) ≤ block_timestamp e.
Proof.
  unfold_sol. split.
  - intros [= H]. bool_facts. done.
  - intros (->&->&->&Ht). apply N.leb_le in Ht as ->. done.
Qed.

Lemma canReturn_true e escrowId st :
  canReturn e escrowId st = Ok true st ↔
  isActive (escrows st !!! escrowId) = true ∧
  isReleased (escrows st !!! escrowId) = false ∧
  isReturned (escrows st !!! escrowId) = false ∧
  block_timestamp e < releaseTime (escrows st !!! escrowId).
Proof.
  unfold_sol. split.
  - intros [= H]. bool_facts. done.
  - intros (->&->&->&Ht). apply N.ltb_lt in Ht as ->. done.
Qed.


End Custody.

Section IndexSound.

Variable keccak256 : list N → N.


End IndexSound.

(** ** What never changes in a record *)

Lemma evolves_refl t : evolves t t.
Proof. by repeat split. Qed.

Lemma evolves_trans t1 t2 t3 : evolves t1 t2 → evolves t2 t3 → evolves t1 t3.
Proof.
  intros (?&?&?&?&?&?&?&?) (?&?&?&?&?&?&?&?).
  repeat split; try congruence; auto.
Qed.

Section Immutable.

Variable keccak256 : list N → N.
Hypothesis keccak256_free : collision_free keccak256.

Lemma exec_evolves now c st x st' id t :
  ledger_ok keccak256 st → exec keccak256 now c st = Ok x st' →
  escrows st !! id = Some t →
  ∃ t', escrows st' !! id = Some t' ∧ evolves t t'.
Proof.
  intros Hok H Ht.
  destruct c as [from value r | from id0 payee acc | from id0 payee acc].
  - apply exec_create_inv in H as (?&?&?&?&?&->&->).
    destruct (created_ledger_ok keccak256 keccak256_free now from value r st)
      as [_ (Hkeep&_)]; try done.
    exists t. split; [by apply Hkeep | apply evolves_refl].
  - apply exec_release_inv in H as (Hl&Ha&?&Hr1&Hr2&?&?&?&->&->).
    destruct (settle_step keccak256 keccak256_free set_isReleased
      (EscrowReleased id0 (recipient (escrows st !!! id0))
         (amount (escrows st !!! id0)))
      now payee id0 (recipient (escrows st !!! id0))
      (amount (escrows st !!! id0)) st)
      as (_&_&Hrec&Hkeep&_); [by left|done..|].
    destruct (decide (id = id0)) as [-> | Hne].
    + eexists. split; [apply Hrec|].
      rewrite (lookup_total_Some _ _ _ Ht). by repeat split.
    + exists t. split; [by apply Hkeep | apply evolves_refl].
  - apply exec_return_inv in H as (Hl&Ha&?&Hr1&Hr2&?&?&?&->&->).
    destruct (settle_step keccak256 keccak256_free set_isReturned
      (EscrowReturned id0 (sender (escrows st !!! id0))
         (amount (escrows st !!! id0)))
      now payee id0 (sender (escrows st !!! id0))
      (amount (escrows st !!! id0)) st)
      as (_&_&Hrec&Hkeep&_); [by right|done..|].
    destruct (decide (id = id0)) as [-> | Hne].
    + eexists. split; [apply Hrec|].
      rewrite (lookup_total_Some _ _ _ Ht). by repeat split.
    + exists t. split; [by apply Hkeep | apply evolves_refl].
Qed.

Lemma run_evolves txs st id t :
  ledger_ok keccak256 st → escrows st !! id = Some t →
  ∃ t', escrows (run keccak256 st txs) !! id = Some t' ∧ evolves t t'.
Proof.
  revert st t. induction txs as [|[now c] txs IH]; intros st t Hok Ht.
  - exists t. split; [done | apply evolves_refl].
  - simpl.
    assert (∃ t1, escrows (transact keccak256 now c st) !! id = Some t1 ∧
                  evolves t t1) as (t1&Ht1&He1).
    { unfold transact, commit.
      destruct (exec keccak256 now c st) as [x st'|] eqn:H.
      - by eapply exec_evolves.
      - exists t. split; [done | apply evolves_refl]. }
    destruct (IH _ t1 (transact_ledger_ok keccak256 keccak256_free now c st Hok)
                Ht1) as (t'&Ht'&He').
    exists t'. split; [done | by eapply evolves_trans].
Qed.


End Immutable.

(** ** The event log mirrors the ledger *)

Lemma log_mirrors_created m evs evs' id t :
  log_mirrors m evs → m !! id = None →
  isReleased t = false → isReturned t = false →
  (∀ e, e ∈ evs' ↔ e ∈ evs ∨
        e = EscrowCreated id (sender t) (recipient t) (amount t)
              (releaseTime t)) →
  log_mirrors (<[id := t]> m) evs'.
Proof.
  intros [Hc Hr Hb Sc Sr Sb] Hnone Hr1 Hr2 Hin. split.
  - intros i f r v rel [H | [= -> -> -> -> ->]]%Hin.
    + destruct (Hc _ _ _ _ _ H) as (t0&Ht0&?). exists t0.
      split; [|done]. rewrite lookup_insert_ne; [done|]. congruence.
    + exists t. by rewrite lookup_insert_eq.
  - intros i to v [H | [=]]%Hin.
    destruct (Hr _ _ _ H) as (t0&Ht0&?). exists t0.
    split; [|done]. rewrite lookup_insert_ne; [done|]. congruence.
  - intros i to v [H | [=]]%Hin.
    destruct (Hb _ _ _ H) as (t0&Ht0&?). exists t0.
    split; [|done]. rewrite lookup_insert_ne; [done|]. congruence.
  - intros i t0. rewrite lookup_insert_Some. intros [[<- <-] | [_ H]].
    + apply Hin. by right.
    + apply Hin. left. by apply Sc.
  - intros i t0. rewrite lookup_insert_Some. intros [[<- <-] | [_ H]] Hf.
    + congruence.
    + apply Hin. left. by apply Sr.
  - intros i t0. rewrite lookup_insert_Some. intros [[<- <-] | [_ H]] Hf.
    + congruence.
    + apply Hin. left. by apply Sb.
Qed.

Lemma log_mirrors_settled m evs evs' id t t' e0 :
  log_mirrors m evs → m !! id = Some t →
  isReleased t = false → isReturned t = false →
  sender t' = sender t → recipient t' = recipient t →
  amount t' = amount t → releaseTime t' = releaseTime t →
  (e0 = EscrowReleased id (recipient t) (amount t) ∧
     isReleased t' = true ∧ isReturned t' = false) ∨
  (e0 = EscrowReturned id (sender t) (amount t) ∧
     isReturned t' = true ∧ isReleased t' = false) →
  (∀ e, e ∈ evs' ↔ e ∈ evs ∨ e = e0) →
  log_mirrors (<[id := t']> m) evs'.
Proof.
  intros [Hc Hr Hb Sc Sr Sb] Hsome Hr1 Hr2 Es Er Ea Et He0 Hin.
  assert (Hother : ∀ i t0, i ≠ id → m !! i = Some t0 →
                           <[id := t']> m !! i = Some t0).
  { intros i t0 Hne H. by rewrite lookup_insert_ne. }
  split.
  - intros i f r v rel [H | Heq]%Hin;
      [|by destruct He0 as [[? _]|[? _]]; subst e0].
    destruct (Hc _ _ _ _ _ H) as (t0&Ht0&?&?&?&?).
    destruct (decide (i = id)) as [-> | Hne].
    + exists t'. rewrite lookup_insert_eq. split; [done|].
      assert (t0 = t) as -> by congruence. split_and!; congruence.
    + exists t0. split; [by apply Hother | done].
  - intros i to v [H | Heq]%Hin.
    + destruct (Hr _ _ _ H) as (t0&Ht0&?&?&?).
      destruct (decide (i = id)) as [-> | Hne]; [congruence|].
      exists t0. split; [by apply Hother | done].
    + destruct He0 as [(->&?&?) | (->&_)]; [|done].
      injection Heq as -> -> ->.
      exists t'. by rewrite lookup_insert_eq.
  - intros i to v [H | Heq]%Hin.
    + destruct (Hb _ _ _ H) as (t0&Ht0&?&?&?).
      destruct (decide (i = id)) as [-> | Hne]; [congruence|].
      exists t0. split; [by apply Hother | done].
    + destruct He0 as [(->&_) | (->&?&?)]; [done|].
      injection Heq as -> -> ->.
      exists t'. by rewrite lookup_insert_eq.
  - intros i t0. rewrite lookup_insert_Some. intros [[<- <-] | [_ H]].
    + apply Hin. left. rewrite Es, Er, Ea, Et. by apply Sc.
    + apply Hin. left. by apply Sc.
  - intros i t0. rewrite lookup_insert_Some. intros [[<- <-] | [_ H]] Hf.
    + apply Hin. right. rewrite Er, Ea.
      destruct He0 as [(->&_) | (_&_&?)]; [done | congruence].
    + apply Hin. left. by apply Sr.
  - intros i t0. rewrite lookup_insert_Some. intros [[<- <-] | [_ H]] Hf.
    + apply Hin. right. rewrite Es, Ea.
      destruct He0 as [(_&_&?) | (->&_)]; [congruence | done].
    + apply Hin. left. by apply Sb.
Qed.

Section LogMirror.

Variable keccak256 : list N → N.

Lemma reachable_log_mirrors st :
  collision_free keccak256 → reachable keccak256 st →
  log_mirrors (escrows st) (events st) ∧ minted_ok keccak256 st.
Proof.
  intros Hfree.
  apply (two_phase_reachable keccak256
    (λ s, log_mirrors (escrows s) (events s) ∧ minted_ok keccak256 s)
    (λ ev s, log_mirrors (escrows s) (events s ++ [ev]) ∧
             minted_ok keccak256 s ∧ _locked s = true)).
  - by intros ev s (_&_&?).
  - split; [|split; [done|]].
    + split; simpl; intros *; rewrite ?lookup_empty; try done;
        by intros ?%elem_of_nil.
    + intros id t. simpl. by rewrite lookup_empty.
  - intros now from value r s [Hlog Hm] ? ? ? ? ?. split.
    + apply (log_mirrors_created _ (events s)); try done.
      * by apply minted_fresh.
      * intros e. simpl. rewrite elem_of_app, list_elem_of_singleton. done.
    + by apply minted_ok_created.
  - intros ev now from value r s (Hlog&Hm&Hl) ? ? ? ? ?. split_and!.
    + apply (log_mirrors_created _ (events s ++ [ev])); try done.
      * by apply minted_fresh.
      * intros e. simpl. rewrite !elem_of_app, !list_elem_of_singleton.
        tauto.
    + by apply minted_ok_created.
    + done.
  - intros id s [Hlog Hm] Ha Hr1 Hr2 _. split_and!.
    + match goal with |- log_mirrors (escrows (paid ?a ?b ?c)) _ =>
        change (escrows (paid a b c)) with (escrows c) end.
      rewrite in_flight_escrows.
      apply (log_mirrors_settled _ (events s) _ id (escrows s !!! id) _
               (EscrowReleased id (recipient (escrows s !!! id))
                  (amount (escrows s !!! id)))); try done.
      * by apply lookup_total_active.
      * by left.
      * intros e. simpl. by rewrite elem_of_app, list_elem_of_singleton.
    + by apply minted_ok_enter.
    + done.
  - intros id s [Hlog Hm] Ha Hr1 Hr2 _. split_and!.
    + match goal with |- log_mirrors (escrows (paid ?a ?b ?c)) _ =>
        change (escrows (paid a b c)) with (escrows c) end.
      rewrite in_flight_escrows.
      apply (log_mirrors_settled _ (events s) _ id (escrows s !!! id) _
               (EscrowReturned id (sender (escrows s !!! id))
                  (amount (escrows s !!! id)))); try done.
      * by apply lookup_total_active.
      * by right.
      * intros e. simpl. by rewrite elem_of_app, list_elem_of_singleton.
    + by apply minted_ok_enter.
    + done.
  - intros ev s (Hlog&[Hmax Hm]&_). split; [done|].
    split; [done|]. intros id t H. by apply Hm in H.
Qed.


End LogMirror.

(** ** Status derivation *)

Section Status.

Variable keccak256 : list N → N.

Lemma getEscrowStatus_eq e escrowId st :
  getEscrowStatus e escrowId st =
  Ok (isActive (escrows st !!! escrowId), isReleased (escrows st !!! escrowId),
      isReturned (escrows st !!! escrowId),
      releaseTime (escrows st !!! escrowId) - block_timestamp e) st.
Proof.
  unfold_sol.
  destruct (block_timestamp e <? releaseTime (escrows st !!! escrowId))
    eqn:Hlt; bool_facts.
  - assert ((block_timestamp e <=? releaseTime (escrows st !!! escrowId))
              = true) as -> by (apply N.leb_le; lia).
    done.
  - do 2 f_equal. lia.
Qed.

(** X12.  The status views agree with each other and follow the clock.
    In every state of the deployed contract between transactions and for
    every escrow that has been created: [timeRemaining] is at most the
    window of 300 once the clock has reached [createdAt]; while the escrow
    is active, [canReturn] is true exactly when [timeRemaining] is
    positive and [canRelease] exactly when it is 0, so exactly one of the
    two holds; once it is settled both are false.  When the clock moves
    on by [d], [timeRemaining] drops by [d], stopping at 0. *)
Theorem status_follows_the_clock st e escrowId d :
  reachable keccak256 st → escrowId ∈ created_ids st →
  let t := escrows st !!! escrowId in
  let later := {| msg_sender := msg_sender e; msg_value := msg_value e;
                  block_timestamp := block_timestamp e + d |} in
  ∃ left,
    getEscrowStatus e escrowId st =
      Ok (isActive t, isReleased t, isReturned t, left) st ∧
    (createdAt t ≤ block_timestamp e → left ≤ RETURN_WINDOW) ∧
    canReturn e escrowId st = Ok (isActive t && (0 <? left)) st ∧
    canRelease e escrowId st = Ok (isActive t && (left =? 0)) st ∧
    getEscrowStatus later escrowId st =
      Ok (isActive t, isReleased t, isReturned t, left - d) st.
Proof.
  intros Hreach Hin t later.
  pose proof (reachable_store_ok keccak256 st Hreach) as Hstore.
  apply (ok_created _ Hstore) in Hin as [t0 Ht0].
  assert (t = t0) as Heq by (by apply lookup_total_Some).
  destruct (ok_record _ Hstore _ _ Ht0) as (_&_&_&Hrel&_&Hact).
  rewrite <- Heq in Hrel, Hact.
  exists (releaseTime t - block_timestamp e). split_and!.
  - apply getEscrowStatus_eq.
  - intros Hc. rewrite Hrel. unfold RETURN_WINDOW. lia.
  - unfold_sol. fold t. f_equal.
    destruct (isActive t) eqn:Ha; [|done]. simpl.
    symmetry in Hact. apply negb_true_iff, orb_false_iff in Hact as [-> ->].
    simpl.
    destruct (block_timestamp e <? releaseTime t) eqn:Hlt; bool_facts;
      symmetry; [apply N.ltb_lt | apply N.ltb_ge]; lia.
  - unfold_sol. fold t. f_equal.
    destruct (isActive t) eqn:Ha; [|done]. simpl.
    symmetry in Hact. apply negb_true_iff, orb_false_iff in Hact as [-> ->].
    simpl.
    destruct (releaseTime t <=? block_timestamp e) eqn:Hle; bool_facts;
      symmetry; [apply N.eqb_eq | apply N.eqb_neq]; lia.
  - rewrite getEscrowStatus_eq. fold t. simpl. do 2 f_equal. lia.
Qed.

End Status.

(** ** The id determines what was hashed *)

Lemma encodePacked_length from to value timestamp count :
  length (encodePacked from to value timestamp count) = 136%nat.
Proof. unfold encodePacked. by rewrite !length_app, !be_bytes_length. Qed.

Lemma encodePacked_inj from to value timestamp count
    from' to' value' timestamp' count' :
  from < 2 ^ 160 → to < 2 ^ 160 → from' < 2 ^ 160 → to' < 2 ^ 160 →
  value ≤ UINT256_MAX → timestamp ≤ UINT256_MAX → count ≤ UINT256_MAX →
  value' ≤ UINT256_MAX → timestamp' ≤ UINT256_MAX → count' ≤ UINT256_MAX →
  encodePacked from to value timestamp count =
    encodePacked from' to' value' timestamp' count' →
  from = from' ∧ to = to' ∧ value = value' ∧ timestamp = timestamp' ∧
  count = count'.
Proof.
  intros Hf Ht Hf' Ht' Hv Hts Hc Hv' Hts' Hc'. unfold encodePacked.
  intros Heq.
  apply app_inj_1 in Heq as [H1 Heq]; [|by rewrite !be_bytes_length].
  apply app_inj_1 in Heq as [H2 Heq]; [|by rewrite !be_bytes_length].
  apply app_inj_1 in Heq as [H3 Heq]; [|by rewrite !be_bytes_length].
  apply app_inj_1 in Heq as [H4 H5]; [|by rewrite !be_bytes_length].
  unfold UINT256_MAX in *.
  apply be_bytes_inj in H1, H2, H3, H4, H5;
    try (change (256 ^ N.of_nat 32) with (2 ^ 256));
    try (change (256 ^ N.of_nat 20) with (2 ^ 160)); lia.
Qed.

Section IdDerivation.

Variable keccak256 : list N → N.


End IdDerivation.

(** * The page *)

Example formatTimeRemaining_examples :
  formatTimeRemaining 300 = "5m 0s" ∧ formatTimeRemaining 59 = "59s" ∧
  formatTimeRemaining 3725 = "1h 2m 5s" ∧
  formatTimeRemaining 90061 = "1d 1h 1m" ∧
  formatTimeRemaining 0 = "Expired" ∧ formatTimeRemaining (-5) = "Expired".
Proof. vm_compute. done. Qed.

Lemma last_char_app s1 s2 :
  s2 ≠ "" → last_char (s1 +:+ s2) = last_char s2.
Proof.
  intros Hne. induction s1 as [|c s1 IH]; [done|].
  simpl. rewrite <- IH.
  destruct (s1 +:+ s2) eqn:H; [|done].
  destruct s1; simpl in H; [done | discriminate].
Qed.

Lemma app_ne_empty s1 s2 : s2 ≠ "" → s1 +:+ s2 ≠ "".
Proof. intros Hne. destruct s1; [done | discriminate]. Qed.

Ltac last_char_step :=
  repeat (rewrite last_char_app;
          [|repeat (apply app_ne_empty); discriminate]).


Lemma iter_tick n (l : list UiEscrowTransaction) :
  Nat.iter n tick l = map (Nat.iter n tick_escrow) l.
Proof.
  induction n as [|n IH]; simpl.
  - by rewrite map_id.
  - rewrite IH. unfold tick. by rewrite map_map.
Qed.

Lemma iter_tick_escrow n escrow :
  (0 ≤ ui_timeRemaining escrow)%Z →
  ui_timeRemaining (Nat.iter n tick_escrow escrow) =
    Z.max 0 (ui_timeRemaining escrow - Z.of_nat n) ∧
  ui_canReturn (Nat.iter n tick_escrow escrow) = ui_canReturn escrow ∧
  ui_canRelease (Nat.iter n tick_escrow escrow) = ui_canRelease escrow ∧
  ui_id (Nat.iter n tick_escrow escrow) = ui_id escrow.
Proof.
  intros H0. induction n as [|n (IH1&IH2&IH3&IH4)].
  - simpl. split_and!; try done. lia.
  - simpl. rewrite IH1. split_and!; try done. lia.
Qed.

Section Countdown.

(** X15.  The page's countdown tracks the contract.  Let the page hold for
    an escrow the [timeRemaining] that [getEscrowStatus] reported at some
    block time (a value below 2^53).  After [n] runs of the one-second
    timer the list has the same entries in the same order, the entry's
    [timeRemaining] is what [getEscrowStatus] reports [n] seconds later,
    never negative, while its [canReturn] and [canRelease] are still the
    values read at the start: the timer does not refresh them. *)
Theorem countdown_tracks_contract st e escrowId left flags
    (l : list UiEscrowTransaction) i escrow n :
  getEscrowStatus e escrowId st = Ok (flags, left) st →
  left < 2 ^ 53 →
  l !! i = Some escrow →
  ui_timeRemaining escrow = Z.max 0 (Z.of_N left) →
  let later := {| msg_sender := msg_sender e; msg_value := msg_value e;
                  block_timestamp := block_timestamp e + N.of_nat n |} in
  ∃ escrow' left',
    length (Nat.iter n tick l) = length l ∧
    Nat.iter n tick l !! i = Some escrow' ∧
    getEscrowStatus later escrowId st = Ok (flags, left') st ∧
    ui_timeRemaining escrow' = Z.of_N left' ∧
    (0 ≤ ui_timeRemaining escrow')%Z ∧
    ui_id escrow' = ui_id escrow ∧
    ui_canReturn escrow' = ui_canReturn escrow ∧
    ui_canRelease escrow' = ui_canRelease escrow.
Proof.
  intros Hstatus Hsmall Hi Htr later.
  rewrite getEscrowStatus_eq in Hstatus. injection Hstatus as <- <-.
  destruct (iter_tick_escrow n escrow) as (H1&H2&H3&H4); [lia|].
  exists (Nat.iter n tick_escrow escrow),
    (releaseTime (escrows st !!! escrowId) - block_timestamp later).
  split_and!; try done.
  - by rewrite iter_tick, length_map.
  - by rewrite iter_tick, list_lookup_fmap, Hi.
  - apply getEscrowStatus_eq.
  - rewrite H1, Htr. simpl. lia.
  - rewrite H1. lia.
Qed.

End Countdown.

(** * Payments and stored records *)

Section Payments.

Variable keccak256 : list N → N.

(** X16.  Payments and settlement events correspond one to one.  In every
    state of the deployed contract between transactions, the value
    transfers the contract has made are, in order, exactly the payments
    that its [EscrowReleased] and [EscrowReturned] events report: nothing
    is paid without its event and no event is emitted without its
    payment. *)
Theorem payments_match_events st :
  reachable keccak256 st → transfers st = omap payment_of (events st).
Proof.
  apply (two_phase_reachable keccak256
    (λ s, transfers s = omap payment_of (events s))
    (λ ev s, transfers s = omap payment_of (events s ++ [ev]) ∧
             created_id ev = None ∧ _locked s = true)).
  - by intros ev s (_&_&?).
  - done.
  - intros now from value r s H _ _ _ _ _. simpl.
    rewrite omap_app. simpl. by rewrite app_nil_r.
  - intros ev now from value r s (H&Hev&Hl) _ _ _ _ _. split_and!; [|done..].
    simpl. rewrite !omap_app in *. simpl. by rewrite app_nil_r.
  - intros id s H _ _ _ _. split_and!; [|done..].
    simpl. rewrite omap_app. simpl. by rewrite H.
  - intros id s H _ _ _ _. split_and!; [|done..].
    simpl. rewrite omap_app. simpl. by rewrite H.
  - intros ev s (H&_&_). done.
Qed.

(** X17.  Stored records are well formed.  In every state of the deployed
    contract between transactions, the record [getEscrow] returns for an
    id that [createEscrow] has created has a recipient that is neither the
    zero address nor the sender, a positive amount, and
    [releaseTime = createdAt + 300]. *)
Theorem stored_records_well_formed st escrowId :
  reachable keccak256 st → escrowId ∈ created_ids st →
  ∃ t, getEscrow escrowId st = Ok t st ∧
       recipient t ≠ 0 ∧ recipient t ≠ sender t ∧ 0 < amount t ∧
       releaseTime t = createdAt t + 300.
Proof.
  intros Hreach Hin.
  pose proof (reachable_store_ok keccak256 st Hreach) as Hstore.
  apply (ok_created _ Hstore) in Hin as [t Ht].
  destruct (ok_record _ Hstore _ _ Ht) as (?&?&?&?&_).
  exists t. split_and!; try done.
  unfold getEscrow, load, gets. f_equal. by apply lookup_total_Some.
Qed.

End Payments.

(** * Concrete runs for the further properties *)

(** At time 300 on the open sample escrow: a stranger's release, the
    sender's release and the recipient's return are turned down, each with
    its own message. *)
Lemma settle_needs_its_party_witness :
  exec sample_keccak256 300 (ReleaseEscrow carol sample_id [] true) sample_open
    = Revert NotAuthorized ∧
  exec sample_keccak256 300 (ReleaseEscrow alice sample_id [] true) sample_open
    = Revert OnlyRecipientCanRelease ∧
  exec sample_keccak256 200 (ReturnEscrow bob sample_id [] true) sample_open
    = Revert OnlySenderCanReturn.
Proof.
  split_and!.
  - apply (settle_needs_its_party sample_keccak256 300 carol sample_id [] true
             sample_open); vm_compute; done.
  - apply (settle_needs_its_party sample_keccak256 300 alice sample_id [] true
             sample_open); vm_compute; done.
  - apply (settle_needs_its_party sample_keccak256 200 bob sample_id [] true
             sample_open); vm_compute; done.
Defined.

(** A recipient that re-enters with a release and a creation is paid
    once. *)
Lemma one_payment_per_settlement_witness :
  transfers (transact sample_keccak256 300
    (ReleaseEscrow bob sample_id
       [ReleaseEscrow bob sample_id [] true; CreateEscrow bob 5 alice] true)
    sample_open) = [(bob, 10)].
Proof.
  rewrite (proj1 (one_payment_per_settlement sample_keccak256 300 _ sample_open)).
  vm_compute. reflexivity.
Defined.


Lemma escrowCount_counts_creations_witness :
  escrowCount sample_open = N.of_nat (length (created_ids sample_open)) ∧
  escrowCount sample_open ≤ UINT256_MAX.
Proof.
  exact (escrowCount_counts_creations sample_keccak256 sample_open
           sample_open_reachable).
Defined.

Lemma participant_index_complete_witness :
  index_complete sample_open ∧
  (∀ u id, id ∈ userEscrows sample_open !!! u → id ∈ created_ids sample_open).
Proof.
  exact (participant_index_complete sample_keccak256 sample_open
           sample_open_reachable).
Defined.






(** Read at time 100, the sample escrow has 200 seconds left; 250 seconds
    later it has none. *)
Lemma status_follows_the_clock_witness :
  ∃ left,
    getEscrowStatus (as_bob 100) sample_id sample_open =
      Ok (true, false, false, left) sample_open ∧
    left = 200 ∧
    getEscrowStatus (as_bob 350) sample_id sample_open =
      Ok (true, false, false, left - 250) sample_open.
Proof.
  assert (Hin : sample_id ∈ created_ids sample_open)
    by (vm_compute; apply list_elem_of_here).
  destruct (status_follows_the_clock sample_keccak256 sample_open (as_bob 100)
              sample_id 250 sample_open_reachable Hin)
    as (left&Hs&_&_&_&Hlater).
  exists left. split; [exact Hs|].
  assert (left = 200) as Hl.
  { vm_compute in Hs. by injection Hs. }
  split; [exact Hl | exact Hlater].
Defined.


(** The page's entry with 200 seconds left shows 0 after 250 ticks, as the
    contract does at time 350, and still says [canReturn]. *)
Lemma countdown_tracks_contract_witness :
  ∃ escrow' left',
    length (Nat.iter 250 tick [sample_ui]) = 1%nat ∧
    Nat.iter 250 tick [sample_ui] !! 0%nat = Some escrow' ∧
    getEscrowStatus (as_bob 350) sample_id sample_open
      = Ok (true, false, false, left') sample_open ∧
    ui_timeRemaining escrow' = Z.of_N left' ∧
    (0 ≤ ui_timeRemaining escrow')%Z ∧
    ui_id escrow' = ui_id sample_ui ∧
    ui_canReturn escrow' = true ∧
    ui_canRelease escrow' = false.
Proof.
  apply (countdown_tracks_contract sample_open (as_bob 100) sample_id 200
           (true, false, false) [sample_ui] 0%nat sample_ui 250%nat);
    (vm_compute; done).
Defined.

Lemma payments_match_events_witness :
  transfers sample_returned = omap payment_of (events sample_returned).
Proof.
  exact (payments_match_events sample_keccak256 sample_returned
           sample_returned_reachable).
Defined.

Lemma stored_records_well_formed_witness :
  ∃ t, getEscrow sample_id sample_open = Ok t sample_open ∧
       recipient t ≠ 0 ∧ recipient t ≠ sender t ∧ 0 < amount t ∧
       releaseTime t = createdAt t + 300.
Proof.
  apply (stored_records_well_formed sample_keccak256 sample_open sample_id
           sample_open_reachable).
  vm_compute. apply list_elem_of_here.
Defined.
